(** * SnakeGameLedPanel: the OpenMoji to RGB565 asset pipeline

    A shallow embedding of [convert_emojis_pure.py] (and of the helper it
    shares with [convert_pngs_to_array.py]) together with the properties
    the specification states about it.

    Conventions of the embedding:
    - Python integers are unbounded, so they are [Z] with no wrap-around;
      [&], [|], [<<] and [>>] are [Z.land], [Z.lor], [Z.shiftl], [Z.shiftr].
    - A PIL image in mode RGB is a record of its size and its pixels in
      row-major order; [getpixel] indexes that list.
    - [for] loops that mutate local variables are left folds over
      [seq 0 n], the loop variables being the accumulator.
    - The centering only forms halves of small integers, which binary64
      floats hold exactly; they are rationals ([Q]) there.  The scale and
      offsets of the rasterizer are the formulas of the source read over
      [Q]: the program rounds every operation to binary64, so its values
      agree with these only up to rounding, and no property below rests
      on them; only the pairing of coordinates into points does. *)

From Stdlib Require Import String Ascii DecimalString.
From Stdlib Require Import ZArith List Lia Bool QArith Qround Qminmax Sorted.
Import ListNotations.

Local Open Scope Z_scope.

(* ------------------------------------------------------------------ *)
(** * RGB helpers                                                      *)
(* ------------------------------------------------------------------ *)

(** An RGB888 pixel, as the 3-tuple [getpixel] returns. *)
Definition rgb : Type := (Z * Z * Z)%type.

Definition rgb_eqb (p q : rgb) : bool :=
  let '(r1, g1, b1) := p in
  let '(r2, g2, b2) := q in
  (r1 =? r2) && (g1 =? g2) && (b1 =? b2).

(** A channel of an image in mode RGB is one byte. *)
Definition channel (c : Z) : Prop := 0 <= c <= 255.

Definition rgb888 (p : rgb) : Prop :=
  let '(r, g, b) := p in channel r /\ channel g /\ channel b.

(** [rgb888_to_rgb565]:
    [((r & 0xF8) << 8) | ((g & 0xFC) << 3) | (b >> 3)]. *)
Definition rgb888_to_rgb565 (r g b : Z) : Z :=
  Z.lor (Z.lor (Z.shiftl (Z.land r 0xF8) 8) (Z.shiftl (Z.land g 0xFC) 3))
        (Z.shiftr b 3).

(** The packing the specification describes: each channel truncated to
    its top 5, 6 and 5 bits, placed in bits 15..11, 10..5 and 4..0. *)
Definition pack565 (r5 g6 b5 : Z) : Z :=
  Z.lor (Z.lor (Z.shiftl r5 11) (Z.shiftl g6 5)) b5.

Definition top_bits (keep : Z) (c : Z) : Z := Z.shiftr c (8 - keep).

(** Decoding of a 16-bit RGB565 value by re-expanding each field to a
    byte (the inverse the round-trip property of the specification
    refers to; the firmware side does it, the scripts do not). *)
Definition rgb565_to_rgb888 (v : Z) : rgb :=
  (Z.shiftl (Z.land (Z.shiftr v 11) 0x1F) 3,
   Z.shiftl (Z.land (Z.shiftr v 5) 0x3F) 2,
   Z.shiftl (Z.land v 0x1F) 3).

(* ------------------------------------------------------------------ *)
(** * Images                                                           *)
(* ------------------------------------------------------------------ *)

(** A PIL image in mode RGB: its size and its pixels, row-major. *)
Record image : Type := mkImage
  { width : nat;
    height : nat;
    data : list rgb }.

(** [img.getpixel((x, y))]. *)
Definition getpixel (img : image) (x y : nat) : rgb :=
  nth (y * width img + x) (data img) (0, 0, 0).

(** The images PIL can hold: as many pixels as the size says, every
    channel a byte. *)
Definition wf_image (img : image) : Prop :=
  length (data img) = (height img * width img)%nat /\ Forall rgb888 (data img).

(** Default arguments of the post-processing functions. *)
Definition background_key : rgb := (255, 0, 255).
Definition outline_boost_threshold : Z := 10.
Definition outline_boost_rgb : rgb := (40, 40, 40).

(* ------------------------------------------------------------------ *)
(** * Colour quantizer                                                 *)
(* ------------------------------------------------------------------ *)

(** The body of the inner loop of [pil_to_rgb565_array]: the value
    appended for one pixel. *)
Definition quantize_pixel (bg : rgb) (threshold : Z) (boost : rgb) (p : rgb) : Z :=
  if rgb_eqb p bg then 0x0000
  else
    let '(r, g, b) := p in
    let '(r, g, b) :=
      if (r <=? threshold) && (g <=? threshold) && (b <=? threshold)
      then boost else (r, g, b) in
    rgb888_to_rgb565 r g b.

(** [pil_to_rgb565_array(img, background_key, outline_boost_threshold,
    outline_boost_rgb)]: two nested loops appending to [out]. *)
Definition pil_to_rgb565_array
           (img : image) (bg : rgb) (threshold : Z) (boost : rgb) : list Z :=
  let w := width img in
  let h := height img in
  fold_left
    (fun out y =>
       fold_left
         (fun out x => out ++ [quantize_pixel bg threshold boost (getpixel img x y)])
         (seq 0 w) out)
    (seq 0 h) [].

(** The call [pil_to_rgb565_array(img)] of [main], with the defaults. *)
Definition pil_to_rgb565_array_default (img : image) : list Z :=
  pil_to_rgb565_array img background_key outline_boost_threshold outline_boost_rgb.

(* ------------------------------------------------------------------ *)
(** * Centering post-process                                           *)
(* ------------------------------------------------------------------ *)

(** [Image.new("RGB", (w, h), color)]. *)
Definition Image_new (w h : nat) (color : rgb) : image :=
  mkImage w h (repeat color (h * w)).

(** A [w] x [h] grid of pixels in row-major order, [px y x] being the
    pixel of column [x] in row [y]. *)
Definition grid (w h : nat) (px : nat -> nat -> rgb) : list rgb :=
  flat_map (fun y => map (px y) (seq 0 w)) (seq 0 h).

(** [dst.paste(src, (dx, dy))]: the pixel of [src] at [(sx, sy)] lands at
    [(sx + dx, sy + dy)]; what falls outside [dst] is clipped, and [dst]
    keeps its own pixels wherever [src] does not reach. *)
Definition paste (dst src : image) (dx dy : Z) : image :=
  mkImage (width dst) (height dst)
          (grid (width dst) (height dst)
                (fun y x =>
                   let sx := Z.of_nat x - dx in
                   let sy := Z.of_nat y - dy in
                   if (0 <=? sx) && (sx <? Z.of_nat (width src))
                      && (0 <=? sy) && (sy <? Z.of_nat (height src))
                   then getpixel src (Z.to_nat sx) (Z.to_nat sy)
                   else getpixel dst x y)).

(** The four loop variables of the bounding-box scan. *)
Record bbox : Type := mkBbox
  { min_x : Z; min_y : Z; max_x : Z; max_y : Z }.

(** The body of the inner loop of [center_by_visible_pixels]. *)
Definition bbox_step (img : image) (bg : rgb) (y x : nat) (b : bbox) : bbox :=
  if rgb_eqb (getpixel img x y) bg then b
  else
    let xz := Z.of_nat x in
    let yz := Z.of_nat y in
    mkBbox (if xz <? min_x b then xz else min_x b)
           (if yz <? min_y b then yz else min_y b)
           (if xz >? max_x b then xz else max_x b)
           (if yz >? max_y b then yz else max_y b).

(** The scan of [center_by_visible_pixels]: [min_x, min_y = w, h] and
    [max_x, max_y = -1, -1], then every pixel row by row. *)
Definition visible_bbox (img : image) (bg : rgb) : bbox :=
  let w := width img in
  let h := height img in
  fold_left
    (fun b y => fold_left (fun b x => bbox_step img bg y x b) (seq 0 w) b)
    (seq 0 h)
    (mkBbox (Z.of_nat w) (Z.of_nat h) (-1) (-1)).

(** Python 3 [round(x)] on a float, returned as an [int]: to the nearest
    integer, a tie going to the even neighbour. *)
Definition py_round (x : Q) : Z :=
  let f := Qfloor x in
  match Qcompare (x - inject_Z f) (1 # 2) with
  | Lt => f
  | Gt => f + 1
  | Eq => if Z.even f then f else f + 1
  end.

(** [center_by_visible_pixels(img, background_key)].  [img.convert("RGB")]
    leaves an image that is already in mode RGB as it is. *)
Definition center_by_visible_pixels (img : image) (bg : rgb) : image :=
  let w := width img in
  let h := height img in
  let b := visible_bbox img bg in
  if (max_x b <? min_x b) || (max_y b <? min_y b) then img
  else
    let bbox_cx := (inject_Z (min_x b + max_x b) / 2)%Q in
    let bbox_cy := (inject_Z (min_y b + max_y b) / 2)%Q in
    let canvas_cx := (inject_Z (Z.of_nat w - 1) / 2)%Q in
    let canvas_cy := (inject_Z (Z.of_nat h - 1) / 2)%Q in
    let dx := py_round (canvas_cx - bbox_cx) in
    let dy := py_round (canvas_cy - bbox_cy) in
    let centered := Image_new w h bg in
    paste centered img dx dy.

(* ------------------------------------------------------------------ *)
(** * Strings as the scripts use them                                  *)
(* ------------------------------------------------------------------ *)

(** Identifiers are file stems made of hexadecimal codepoints joined by
    hyphens, so strings are ASCII; the [str] methods below are the
    Python ones restricted to ASCII. *)

Section PyStrings.
Local Open Scope string_scope.
Local Open Scope char_scope.

(** The line feed written as [\n] in the source. *)
Definition nl : string := String "010" EmptyString.

(** Characters [str.strip()] and [int()] treat as white space. *)
Definition is_space (c : ascii) : bool :=
  let n := nat_of_ascii c in
  ((9 <=? n) && (n <=? 13) || (28 <=? n) && (n <=? 32))%nat.

Definition upper_char (c : ascii) : ascii :=
  let n := nat_of_ascii c in
  if ((97 <=? n) && (n <=? 122))%nat then ascii_of_nat (n - 32) else c.

(** [s.upper()]. *)
Fixpoint py_upper (s : string) : string :=
  match s with
  | EmptyString => EmptyString
  | String c s' => String (upper_char c) (py_upper s')
  end.

Fixpoint py_lstrip (s : string) : string :=
  match s with
  | EmptyString => EmptyString
  | String c s' => if is_space c then py_lstrip s' else s
  end.

Fixpoint py_rstrip (s : string) : string :=
  match s with
  | EmptyString => EmptyString
  | String c s' =>
      match py_rstrip s' with
      | EmptyString => if is_space c then EmptyString else String c EmptyString
      | r => String c r
      end
  end.

(** [s.strip()]. *)
Definition py_strip (s : string) : string := py_lstrip (py_rstrip s).

(** [s.count("-")]. *)
Fixpoint count_dash (s : string) : nat :=
  match s with
  | EmptyString => 0
  | String c s' => ((if Ascii.eqb c "-" then 1 else 0) + count_dash s')%nat
  end.

(** [s.split("-")[0]]: what precedes the first hyphen. *)
Fixpoint first_segment (s : string) : string :=
  match s with
  | EmptyString => EmptyString
  | String c s' => if Ascii.eqb c "-" then EmptyString else String c (first_segment s')
  end.

Definition hex_value (c : ascii) : option Z :=
  let n := nat_of_ascii c in
  if ((48 <=? n) && (n <=? 57))%nat then Some (Z.of_nat (n - 48))
  else if ((65 <=? n) && (n <=? 70))%nat then Some (Z.of_nat (n - 55))
  else if ((97 <=? n) && (n <=? 102))%nat then Some (Z.of_nat (n - 87))
  else None.

(** The digits of an [int(s, 16)] literal: hexadecimal digits, single
    underscores allowed between them. [after_digit] tells whether the
    previous character was a digit. *)
Fixpoint hex_body (s : string) (acc : Z) (after_digit : bool) : option Z :=
  match s with
  | EmptyString => if after_digit then Some acc else None
  | String c s' =>
      if Ascii.eqb c "_" then
        if after_digit then hex_body s' acc false else None
      else
        match hex_value c with
        | Some d => hex_body s' (16 * acc + d) true
        | None => None
        end
  end.

(** After an optional sign: an optional [0x] prefix (which may be
    followed by one underscore), then the digits. *)
Definition hex_unsigned (s : string) : option Z :=
  match s with
  | String "0" (String x rest) =>
      if Ascii.eqb x "x" || Ascii.eqb x "X" then
        match rest with
        | String "_" rest' => hex_body rest' 0 false
        | _ => hex_body rest 0 false
        end
      else hex_body s 0 false
  | _ => hex_body s 0 false
  end.

(** [int(s, 16)], [None] standing for [ValueError]. *)
Definition py_int16 (s : string) : option Z :=
  match py_strip s with
  | String "-" s' => option_map Z.opp (hex_unsigned s')
  | String "+" s' => hex_unsigned s'
  | s' => hex_unsigned s'
  end.

End PyStrings.

(* ------------------------------------------------------------------ *)
(** * Emoji selection                                                  *)
(* ------------------------------------------------------------------ *)

Section Selection.
Local Open Scope string_scope.

Definition FACE_SEED : list string :=
  [ "1F602"; "1F923"; "1F60D"; "1F970"; "1F60A"; "1F60E";
    "1F609"; "1F618"; "1F61C"; "1F62D"; "1F914"; "1F644" ].

Definition FUN_SEED : list string :=
  [ "2764-FE0F"; "1F49B"; "1F49A"; "1F499"; "1F49C"; "1F5A4"; "1F496"; "1F495";
    "1F49E"; "1F494"; "1F48B"; "1F4A5"; "1F4A3"; "1F4A9";
    "2705"; "274C"; "2753"; "2757"; "26A0-FE0F"; "1F6AB"; "1F6A8"; "1F4A1";
    "2728"; "1F525"; "1F4AF";
    "1F44D"; "1F44E"; "1F44F"; "1F64F"; "1F91D"; "1F918"; "270A"; "1F44C"; "1F91E";
    "26BD"; "1F3C0"; "1F3C8"; "26BE"; "1F3BE"; "1F3D0"; "1F94E"; "1F94F";
    "1F3B2"; "1F3AE"; "1F3AF"; "1F3C6"; "1F947";
    "1F389"; "1F38A"; "1F973"; "1F37E"; "1F381"; "1F38E"; "1F3B6"; "1F3A7";
    "1F355"; "1F354"; "1F35F"; "1F357"; "1F372"; "1F366"; "1F36A"; "1F370";
    "1F36D"; "1F37F"; "1F96A"; "1F9C0"; "2615"; "1F37A"; "1F377"; "1F378";
    "1F436"; "1F431"; "1F98A"; "1F981"; "1F984"; "1F438"; "1F41F"; "1F433"; "1F40D";
    "1F33B"; "1F339"; "1F340";
    "1F697"; "1F695"; "1F6F4"; "1F6A2"; "2708-FE0F"; "1F680"; "1F681";
    "1F3E0"; "1F30D"; "1F30E"; "1F30F";
    "1F4F1"; "1F4BB"; "1F4FA"; "1F4F7"; "1F50A"; "1F4A4"; "23F0"; "1F514";
    "1F4B0"; "1F511" ].

(** [_first_segment_hex(code)]: the first hexadecimal segment, 0 when it
    does not parse. *)
Definition _first_segment_hex (code : string) : Z :=
  match py_int16 (first_segment code) with
  | Some v => v
  | None => 0
  end.

(** [_is_face_like(code)]. *)
Definition _is_face_like (code : string) : bool :=
  let v := _first_segment_hex code in
  (((0x1F600 <=? v) && (v <=? 0x1F64F))
   || ((0x1F910 <=? v) && (v <=? 0x1F92F))
   || ((0x1F930 <=? v) && (v <=? 0x1F9AF)))%Z.

(** [_is_reasonable_autofill(code)]. *)
Definition _is_reasonable_autofill (code : string) : bool :=
  (0x2300 <=? _first_segment_hex code)%Z.

(** Membership in a Python [set] of strings; the sets [available] and
    [seen] are kept as lists of their elements. *)
Definition mem (c : string) (s : list string) : bool :=
  existsb (String.eqb c) s.

(** [sort_key(c) = (c.count("-"), len(c), c)], compared as tuples. *)
Definition sort_key_leb (a b : string) : bool :=
  match Nat.compare (count_dash a) (count_dash b) with
  | Lt => true
  | Gt => false
  | Eq =>
      match Nat.compare (String.length a) (String.length b) with
      | Lt => true
      | Gt => false
      | Eq => String.leb a b
      end
  end.

Fixpoint insert_by_key (c : string) (l : list string) : list string :=
  match l with
  | [] => [c]
  | d :: l' => if sort_key_leb c d then c :: l else d :: insert_by_key c l'
  end.

(** [sorted(available, key=sort_key)]: the elements of the set, each
    once, in key order. *)
Definition sorted_by_key (available : list string) : list string :=
  fold_right insert_by_key [] (nodup string_dec available).

(** The variables the closure [add] of [main] mutates. *)
Record selection : Type := mkSelection
  { selected : list string;
    seen : list string;
    face_count : Z }.

Definition len_selected (st : selection) : Z := Z.of_nat (length (selected st)).

(** The closure [add(code)] of [main]. *)
Definition add (available : list string) (max_faces : Z)
           (code : string) (st : selection) : selection :=
  let c := py_strip (py_upper code) in
  if String.eqb c "" || mem c (seen st) then st
  else if negb (mem c available) then st
  else if _is_face_like c then
         if (face_count st >=? max_faces)%Z then st
         else mkSelection (selected st ++ [c]) (c :: seen st) (face_count st + 1)
       else mkSelection (selected st ++ [c]) (c :: seen st) (face_count st).

(** [for c in SEED: add(c); if len(selected) >= target_count: break]. *)
Fixpoint seed_loop (available : list string) (max_faces target_count : Z)
         (seed : list string) (st : selection) : selection :=
  match seed with
  | [] => st
  | c :: seed' =>
      let st' := add available max_faces c st in
      if (len_selected st' >=? target_count)%Z then st'
      else seed_loop available max_faces target_count seed' st'
  end.

(** The auto-fill loop: stop when full, skip what is not a reasonable
    auto-fill, [add] the rest. *)
Fixpoint autofill_loop (available : list string) (max_faces target_count : Z)
         (candidates : list string) (st : selection) : selection :=
  match candidates with
  | [] => st
  | c :: candidates' =>
      if (len_selected st >=? target_count)%Z then st
      else if negb (_is_reasonable_autofill c)
           then autofill_loop available max_faces target_count candidates' st
           else autofill_loop available max_faces target_count candidates'
                              (add available max_faces c st)
  end.

(** The selection step of [main]: [available] is the set of codes found
    in the source directory, [count] and [max_faces_arg] the command-line
    values. The result is [emoji_codes]. *)
Definition main_selection (available : list string) (count max_faces_arg : Z)
  : list string :=
  let target_count := Z.max 1 count in
  let max_faces := Z.max 0 max_faces_arg in
  let st0 := mkSelection [] [] 0 in
  let st1 := seed_loop available max_faces target_count FACE_SEED st0 in
  let st2 := if (len_selected st1 <? target_count)%Z
             then seed_loop available max_faces target_count FUN_SEED st1
             else st1 in
  let st3 := if (len_selected st2 <? target_count)%Z
             then autofill_loop available max_faces target_count
                                (sorted_by_key available) st2
             else st2 in
  firstn (Z.to_nat target_count) (selected st3).

(** ** The stand-alone selection function *)

(** The closure [add(code)] of [_select_emoji_codes]: the same as the
    one of [main], without the face cap. *)
Definition add_plain (available : list string) (code : string)
           (st : list string * list string) : list string * list string :=
  let '(selected, seen) := st in
  let c := py_strip (py_upper code) in
  if String.eqb c "" || mem c seen then st
  else if negb (mem c available) then st
  else (List.app selected [c], c :: seen).

(** [selected[:target_count]], the stop index being any integer. *)
Definition slice_to {A : Type} (l : list A) (stop : Z) : list A :=
  if (0 <=? stop)%Z then firstn (Z.to_nat stop) l
  else firstn (length l - Z.to_nat (- stop)) l.

(** The second loop of [_select_emoji_codes]:
    [for c in sorted(...): add(c); if len(selected) >= target_count: break]. *)
Fixpoint fill_loop (available : list string) (target_count : Z)
         (candidates : list string) (st : list string * list string)
  : list string * list string :=
  match candidates with
  | [] => st
  | c :: candidates' =>
      let st' := add_plain available c st in
      if (Z.of_nat (length (fst st')) >=? target_count)%Z then st'
      else fill_loop available target_count candidates' st'
  end.

(** The first loop, which returns from the function when the target is
    reached ([inl]) and otherwise falls through to the second ([inr]). *)
Fixpoint seed_pass (available : list string) (target_count : Z)
         (seed : list string) (st : list string * list string)
  : list string + list string * list string :=
  match seed with
  | [] => inr st
  | c :: seed' =>
      let st' := add_plain available c st in
      if (Z.of_nat (length (fst st')) >=? target_count)%Z
      then inl (slice_to (fst st') target_count)
      else seed_pass available target_count seed' st'
  end.

(** [_select_emoji_codes(svg_dir, target_count, seed)], [available]
    being the set of codes found in [svg_dir]. *)
Definition _select_emoji_codes (available : list string) (target_count : Z)
           (seed : list string) : list string :=
  match seed_pass available target_count seed ([], []) with
  | inl result => result
  | inr st => fst (fill_loop available target_count (sorted_by_key available) st)
  end.

End Selection.

(* ------------------------------------------------------------------ *)
(** * Array emitter                                                    *)
(* ------------------------------------------------------------------ *)

Section Emitter.
Local Open Scope string_scope.

(** [str(n)] for the lengths written into the header. *)
Definition py_str (n : nat) : string :=
  NilEmpty.string_of_uint (Nat.to_uint n).

(** One upper-case hexadecimal digit. *)
Definition hex_digit (d : Z) : ascii :=
  if (d <? 10)%Z then ascii_of_nat (48 + Z.to_nat d)
  else ascii_of_nat (55 + Z.to_nat d).

(** The hexadecimal digits of a non-negative integer, most significant
    first, without leading zeros (one digit for zero). *)
Fixpoint hex_digits (fuel : nat) (n : Z) (acc : string) : string :=
  let acc' := String (hex_digit (n mod 16)) acc in
  match fuel with
  | O => acc'
  | S fuel' => if (n / 16 =? 0)%Z then acc' else hex_digits fuel' (n / 16) acc'
  end.

Definition hex_upper (n : Z) : string :=
  hex_digits (Z.to_nat (Z.log2 n)) n "".

(** Left padding with zeros up to a width. *)
Definition zfill (w : nat) (s : string) : string :=
  string_of_list_ascii (repeat "0"%char (w - String.length s)) ++ s.

(** The format specification [04X]: upper-case hexadecimal, zero-padded
    to four characters, the sign (if any) counting as one. *)
Definition format_04X (val : Z) : string :=
  if (val <? 0)%Z then "-" ++ zfill 3 (hex_upper (- val))
  else zfill 4 (hex_upper val).

(** [sep.join(parts)]. *)
Definition join (sep : string) (parts : list string) : string :=
  String.concat sep parts.

(** [range(0, stop, 16)]. *)
Definition range16 (stop : nat) : list nat :=
  map (fun k => 16 * k)%nat (seq 0 ((stop + 15) / 16)).

(** The slice [l[i : i + 16]]. *)
Definition slice16 {A : Type} (l : list A) (i : nat) : list A :=
  firstn 16 (skipn i l).

(** [generate_cpp_array(name, rgb565_array)]. *)
Definition generate_cpp_array (name : string) (rgb565_array : list Z) : string :=
  let lines :=
    [ "const uint16_t " ++ name ++ "[" ++ py_str (length rgb565_array) ++ "] = {" ] in
  let lines :=
    fold_left
      (fun lines i =>
         let chunk := slice16 rgb565_array i in
         let hex_values := join ", " (map (fun val => "0x" ++ format_04X val) chunk) in
         List.app lines [ "    " ++ hex_values ++ "," ])
      (range16 (length rgb565_array)) lines in
  let lines := List.app lines [ "};" ] in
  join nl lines.

(** [f.write(s)] on the text file being written. *)
Definition write (s : string) (f : string) : string := f ++ s.

(** The [with out_file.open("w") as f:] block of [main]: the text of
    the generated header. *)
Definition write_header (arrays : list (string * list Z)) : string :=
  let f := "" in
  let f := write ("#pragma once" ++ nl) f in
  let f := write ("#include <Arduino.h>" ++ nl ++ nl) f in
  let f := write ("// OpenMoji emoji data converted from SVG to 64x64 RGB565" ++ nl) f in
  let f := write ("// Source: https://openmoji.org (CC BY-SA 4.0)" ++ nl ++ nl) f in
  let f :=
    fold_left
      (fun f (p : string * list Z) =>
         let f := write (generate_cpp_array (fst p) (snd p)) f in
         write (nl ++ nl) f)
      arrays f in
  let f := write ("const uint16_t* emoji_arrays[" ++ py_str (length arrays)
                  ++ "] = {" ++ nl) f in
  let f :=
    fold_left (fun f (p : string * list Z) => write ("    " ++ fst p ++ "," ++ nl) f)
              arrays f in
  let f := write ("};" ++ nl ++ nl) f in
  let f := write ("const int NUM_EMOJIS = " ++ py_str (length arrays) ++ ";" ++ nl) f in
  f.

End Emitter.

(* ------------------------------------------------------------------ *)
(** * The driver                                                       *)
(* ------------------------------------------------------------------ *)

Section Driver.
Local Open Scope string_scope.

(** What happens to one selected identifier in the conversion loop of
    [main]: its file is missing, the conversion raises, or the pipeline
    (parse, render, center, quantize) yields a pixel array. *)
Inductive conversion : Type :=
| Missing
| Raised
| Converted (rgb565 : list Z).

(** [s.lower()], for the array names, on ASCII strings: the letters
    [A] to [Z] move to [a] to [z], any other character below 128 stays.
    (Python also lowers letters outside ASCII; identifiers holding such
    characters are outside this model.) *)
Definition lower_char (c : ascii) : ascii :=
  let n := nat_of_ascii c in
  if ((65 <=? n) && (n <=? 90))%nat then ascii_of_nat (n + 32) else c.

Fixpoint py_lower (s : string) : string :=
  match s with
  | EmptyString => EmptyString
  | String c s' => String (lower_char c) (py_lower s')
  end.

(** The conversion loop of [main]: a failed item is reported and
    skipped, a converted one is appended to [arrays]. *)
Definition convert_all (convert : string -> conversion) (emoji_codes : list string)
  : list (string * list Z) :=
  fold_left
    (fun arrays emoji_code =>
       match convert emoji_code with
       | Missing => arrays
       | Raised => arrays
       | Converted rgb565 =>
           List.app arrays [("emoji_" ++ py_lower emoji_code, rgb565)]
       end)
    emoji_codes [].

(** What a run of [main] leaves behind: its exit status and, when it
    got that far, the header it wrote. *)
Record outcome : Type := mkOutcome
  { exit_status : Z;
    header : option string }.

(** [main()], as a function of what it reads from its environment:
    whether the source directory exists, the codes of the files in it,
    the command-line values, and the fate of each conversion.  Console
    output and preview images are left out.  This is the run whose
    command line parses and whose output file can be created and
    written: a rejected command line ends the process in [argparse],
    and a failing [mkdir], [open] or [write] raises out of [main]; those
    runs return no status and are not outcomes of this function. *)
Definition main (svg_dir_exists : bool) (available : list string)
           (count max_faces : Z) (convert : string -> conversion) : outcome :=
  if negb svg_dir_exists then mkOutcome 1 None
  else
    let emoji_codes := main_selection available count max_faces in
    match emoji_codes with
    | [] => mkOutcome 1 None
    | _ =>
        let arrays := convert_all convert emoji_codes in
        mkOutcome 0 (Some (write_header arrays))
    end.

(** The number of assets a run produced. *)
Definition produced (available : list string) (count max_faces : Z)
           (convert : string -> conversion) : nat :=
  length (convert_all convert (main_selection available count max_faces)).

End Driver.

(* ------------------------------------------------------------------ *)
(** * Rasterizer: the fit-and-center transform                         *)
(* ------------------------------------------------------------------ *)

Section Rasterizer.
Local Open Scope Q_scope.

(** The bounds [render_drawing_to_pil] works from: those of
    [drawing.getBounds()], or [(0, 0, width, height)] when that fails.
    Coordinates are binary64 floats in the program; the formulas below
    are written over [Q] and give the program's values up to the
    rounding of each operation. *)
Record bounds : Type := mkBounds
  { b_min_x : Q; b_min_y : Q; b_max_x : Q; b_max_y : Q }.

(** The literal [1e-6]. *)
Definition tiny : Q := 1 # 1000000.

(** [dw = max(1e-6, max_x - min_x)] and [dh = max(1e-6, max_y - min_y)]. *)
Definition dw (b : bounds) : Q := Qmax tiny (b_max_x b - b_min_x b).
Definition dh (b : bounds) : Q := Qmax tiny (b_max_y b - b_min_y b).

(** [scale = min(size / dw, size / dh)]. *)
Definition scale (b : bounds) (size : Z) : Q :=
  Qmin (inject_Z size / dw b) (inject_Z size / dh b).

(** [offset_x = (size - dw * scale) / 2.0], and likewise [offset_y]. *)
Definition offset_x (b : bounds) (size : Z) : Q :=
  (inject_Z size - dw b * scale b size) / 2.

Definition offset_y (b : bounds) (size : Z) : Q :=
  (inject_Z size - dh b * scale b size) / 2.

(** The closures [tx] and [ty]. *)
Definition tx (b : bounds) (size : Z) (x : Q) : Q :=
  offset_x b size + (x - b_min_x b) * scale b size.

Definition ty (b : bounds) (size : Z) (y : Q) : Q :=
  offset_y b size + (y - b_min_y b) * scale b size.

End Rasterizer.

(* ------------------------------------------------------------------ *)
(** * Listing the source directory                                     *)
(* ------------------------------------------------------------------ *)

Section Listing.
Local Open Scope string_scope.

Fixpoint insert_sorted (c : string) (l : list string) : list string :=
  match l with
  | [] => [c]
  | d :: l' => if String.leb c d then c :: l else d :: insert_sorted c l'
  end.

(** [sorted(s)] on a set of strings. *)
Definition py_sorted (s : list string) : list string :=
  fold_right insert_sorted [] (nodup string_dec s).

(** [_list_available_emoji_codes(svg_dir)], [stems] being the stems
    [p.stem] of the files [svg_dir.glob("*.svg")] finds. *)
Definition _list_available_emoji_codes (stems : list string) : list string :=
  let codes := map py_upper stems in
  py_sorted codes.

End Listing.

(* ------------------------------------------------------------------ *)
(** * The PNG script                                                   *)
(* ------------------------------------------------------------------ *)

Section PngScript.
Local Open Scope string_scope.

(** [png_to_rgb565_array(png_path, size)], from the image that
    [Image.open], [convert('RGB')] and [resize((size, size))] produce:
    every pixel is encoded as it is. *)
Definition png_to_rgb565_array (resized : image) (size : nat) : list Z :=
  fold_left
    (fun rgb565_array y =>
       fold_left
         (fun rgb565_array x =>
            let '(r, g, b) := getpixel resized x y in
            List.app rgb565_array [rgb888_to_rgb565 r g b])
         (seq 0 size) rgb565_array)
    (seq 0 size) [].

Definition POPULAR_EMOJIS : list string :=
  [ "1F600"; "1F601"; "1F602"; "1F603"; "1F604"; "1F605"; "1F606";
    "1F609"; "1F60A"; "1F60D"; "1F60E"; "1F60F"; "1F618"; "1F61A";
    "1F61B"; "1F61C"; "1F61D"; "1F61E"; "1F620"; "1F621"; "1F622";
    "1F623"; "1F624"; "1F625"; "1F628"; "1F629"; "1F62A"; "1F62D";
    "1F631"; "1F632" ].

(** The inner loop of [main] in the PNG script, [for ext in ['.png',
    '.PNG']]: the first extension whose file exists and converts wins
    ([break]); a file that exists but fails to convert is reported and
    the next extension is tried. [file_exists] and [load] are the file
    system and the conversion, by file name. *)
Fixpoint try_extensions (file_exists : string -> bool)
         (load : string -> option (list Z))
         (emoji_code : string) (exts : list string) : option (list Z) :=
  match exts with
  | [] => None
  | ext :: exts' =>
      if file_exists (emoji_code ++ ext) then
        match load (emoji_code ++ ext) with
        | Some rgb565_array => Some rgb565_array
        | None => try_extensions file_exists load emoji_code exts'
        end
      else try_extensions file_exists load emoji_code exts'
  end.

(** The outer loop of [main] in the PNG script: the arrays, in the
    order of [POPULAR_EMOJIS]. *)
Definition png_arrays (file_exists : string -> bool)
           (load : string -> option (list Z)) : list (string * list Z) :=
  fold_left
    (fun arrays emoji_code =>
       match try_extensions file_exists load emoji_code [".png"; ".PNG"] with
       | Some rgb565_array =>
           List.app arrays [("emoji_" ++ py_lower emoji_code, rgb565_array)]
       | None => arrays
       end)
    POPULAR_EMOJIS [].

End PngScript.

(* ------------------------------------------------------------------ *)
(** * Rasterizer: the points of polygons and paths                     *)
(* ------------------------------------------------------------------ *)

Section PolygonPoints.
Local Open Scope Q_scope.

(** [range(0, stop, 2)]. *)
Definition range2 (stop : Z) : list nat :=
  map (fun k => 2 * k)%nat (seq 0 (Z.to_nat ((stop + 1) / 2))).

(** The points of a [Polygon], [PolyLine] or [Path] in
    [render_element], from its flat coordinate list [pts]: nothing is
    drawn ([None]) for fewer than four coordinates or fewer than two
    points; otherwise
    [[(tx(pts[i]), ty(pts[i + 1])) for i in range(0, len(pts) - 1, 2)]]. *)
Definition element_points (b : bounds) (size : Z) (pts : list Q)
  : option (list (Q * Q)) :=
  if (length pts <? 4)%nat then None
  else
    let points :=
      map (fun i => (tx b size (nth i pts 0), ty b size (nth (i + 1) pts 0)))
          (range2 (Z.of_nat (length pts) - 1)) in
    if (length points <? 2)%nat then None else Some points.

End PolygonPoints.

(* ================================================================== *)
(** * Part II: properties                                              *)
(* ================================================================== *)

(* ------------------------------------------------------------------ *)
(** * Generic facts about loops and lists                              *)
(* ------------------------------------------------------------------ *)

Section LoopFacts.
Context {A B : Type}.

(** A loop whose body appends one value per iteration builds a [map]. *)
Lemma fold_left_append_map (f : A -> B) (l : list A) (acc : list B) :
    fold_left (fun out a => out ++ [f a]) l acc = acc ++ map f l.
Proof.
    revert acc; induction l as [|a l IH]; intros acc; simpl.
    - now rewrite app_nil_r.
    - rewrite IH, <- app_assoc. reflexivity.
Qed.

(** Two nested appending loops build a [flat_map]. *)
Lemma fold_left_nested_flat_map {C : Type} (f : C -> A -> B)
        (inner : list A) (outer : list C) (acc : list B) :
    fold_left (fun out c => fold_left (fun out' a => out' ++ [f c a]) inner out)
              outer acc
    = acc ++ flat_map (fun c => map (f c) inner) outer.
Proof.
    revert acc; induction outer as [|c outer IH]; intros acc; simpl.
    - now rewrite app_nil_r.
    - rewrite IH, fold_left_append_map, <- app_assoc. reflexivity.
Qed.
End LoopFacts.

(** Row-major indexing of a grid built row by row. *)
Lemma nth_error_grid {B : Type} (g : nat -> nat -> B) (w : nat) :
  forall (h s k x : nat),
    (k < h)%nat -> (x < w)%nat ->
    nth_error (flat_map (fun y => map (g y) (seq 0 w)) (seq s h)) (k * w + x)
    = Some (g (s + k)%nat x).
Proof.
  induction h as [|h IH]; intros s k x Hk Hx; [lia|].
  simpl seq. simpl flat_map.
  destruct k as [|k].
- simpl. rewrite nth_error_app1 by (now rewrite length_map, length_seq).
    rewrite nth_error_map, nth_error_seq.
    destruct (Nat.ltb_spec x w); [|lia].
    simpl. now rewrite Nat.add_0_r.
- rewrite nth_error_app2 by (rewrite length_map, length_seq; simpl; lia).
    rewrite length_map, length_seq.
    replace (S k * w + x - w)%nat with (k * w + x)%nat by (simpl; lia).
    rewrite IH by lia. f_equal. f_equal. lia.
Qed.

Lemma length_grid {B : Type} (g : nat -> nat -> B) (w : nat) :
  forall (h s : nat),
    length (flat_map (fun y => map (g y) (seq 0 w)) (seq s h)) = (h * w)%nat.
Proof.
  induction h as [|h IH]; intros s; simpl; [reflexivity|].
  now rewrite length_app, length_map, length_seq, IH.
Qed.

(** A property checked on every integer of [0, n) holds on that range. *)
Lemma forallb_Z_range (p : Z -> bool) (n : nat) :
  forallb p (map Z.of_nat (seq 0 n)) = true ->
  forall z, 0 <= z < Z.of_nat n -> p z = true.
Proof.
  intros H z Hz. rewrite forallb_forall in H. apply H.
  apply in_map_iff. exists (Z.to_nat z). split; [lia|].
  apply in_seq. lia.
Qed.

Lemma rgb_eqb_spec (p q : rgb) : reflect (p = q) (rgb_eqb p q).
Proof.
  destruct p as [[r1 g1] b1], q as [[r2 g2] b2]; unfold rgb_eqb.
  destruct (Z.eqb_spec r1 r2), (Z.eqb_spec g1 g2), (Z.eqb_spec b1 b2);
    simpl; constructor; congruence.
Qed.

(* ------------------------------------------------------------------ *)
(** * Properties of the colour quantizer                               *)
(* ------------------------------------------------------------------ *)

Lemma pil_to_rgb565_array_grid img bg threshold boost :
  pil_to_rgb565_array img bg threshold boost
  = flat_map (fun y => map (fun x => quantize_pixel bg threshold boost (getpixel img x y))
                           (seq 0 (width img)))
             (seq 0 (height img)).
Proof.
  unfold pil_to_rgb565_array.
  exact (fold_left_nested_flat_map
           (fun y x => quantize_pixel bg threshold boost (getpixel img x y))
           (seq 0 (width img)) (seq 0 (height img)) []).
Qed.

(** The value at the row-major position of pixel [(x, y)]. *)
Lemma pil_to_rgb565_array_nth img bg threshold boost (x y : nat) :
  (x < width img)%nat -> (y < height img)%nat ->
  nth_error (pil_to_rgb565_array img bg threshold boost) (y * width img + x)
  = Some (quantize_pixel bg threshold boost (getpixel img x y)).
Proof.
  intros Hx Hy. rewrite pil_to_rgb565_array_grid.
  now rewrite (nth_error_grid
                 (fun y x => quantize_pixel bg threshold boost (getpixel img x y))
                 (width img) (height img) 0 y x Hy Hx).
Qed.

Lemma pil_to_rgb565_array_length img bg threshold boost :
  length (pil_to_rgb565_array img bg threshold boost)
  = (height img * width img)%nat.
Proof.
  rewrite pil_to_rgb565_array_grid. apply length_grid.
Qed.

Lemma getpixel_rgb888 img (x y : nat) :
  wf_image img -> (x < width img)%nat -> (y < height img)%nat ->
  rgb888 (getpixel img x y).
Proof.
  intros [Hlen Hall] Hx Hy. unfold getpixel.
  rewrite Forall_forall in Hall. apply Hall, nth_In.
  rewrite Hlen. nia.
Qed.

(** ** The encoder, one channel at a time

    Each channel has 256 values, so what a single channel contributes to
    the packed word is checked by evaluation on the whole range; the
    three contributions are then combined with the distributivity of
    shifts and masks over [Z.lor]. *)

Definition bytes : list Z := map Z.of_nat (seq 0 256).

Lemma on_bytes (p : Z -> bool) :
  forallb p bytes = true -> forall c, channel c -> p c = true.
Proof.
  intros H c Hc. apply (forallb_Z_range p 256 H). unfold channel in Hc. lia.
Qed.

Definition red_field (r : Z) : Z := Z.shiftl (Z.land r 0xF8) 8.
Definition green_field (g : Z) : Z := Z.shiftl (Z.land g 0xFC) 3.
Definition blue_field (b : Z) : Z := Z.shiftr b 3.

Lemma rgb888_to_rgb565_fields r g b :
  rgb888_to_rgb565 r g b = Z.lor (Z.lor (red_field r) (green_field g)) (blue_field b).
Proof. reflexivity. Qed.

Definition red_ok (r : Z) : bool :=
  (red_field r =? Z.shiftl (top_bits 5 r) 11)
  && (Z.shiftl (Z.land (Z.shiftr (red_field r) 11) 0x1F) 3 =? Z.land r 0xF8)
  && (Z.land (Z.shiftr (red_field r) 5) 0x3F =? 0)
  && (Z.land (red_field r) 0x1F =? 0)
  && (Z.land (red_field r) 0xFFFF =? red_field r)
  && (negb (red_field r =? 0) || (r <=? 10)).

Definition green_ok (g : Z) : bool :=
  (green_field g =? Z.shiftl (top_bits 6 g) 5)
  && (Z.land (Z.shiftr (green_field g) 11) 0x1F =? 0)
  && (Z.shiftl (Z.land (Z.shiftr (green_field g) 5) 0x3F) 2 =? Z.land g 0xFC)
  && (Z.land (green_field g) 0x1F =? 0)
  && (Z.land (green_field g) 0xFFFF =? green_field g)
  && (negb (green_field g =? 0) || (g <=? 10)).

Definition blue_ok (b : Z) : bool :=
  (blue_field b =? top_bits 5 b)
  && (Z.land (Z.shiftr (blue_field b) 11) 0x1F =? 0)
  && (Z.land (Z.shiftr (blue_field b) 5) 0x3F =? 0)
  && (Z.shiftl (Z.land (blue_field b) 0x1F) 3 =? Z.land b 0xF8)
  && (Z.land (blue_field b) 0xFFFF =? blue_field b)
  && (negb (blue_field b =? 0) || (b <=? 10)).

Ltac split_checks H :=
  repeat match type of H with
         | (_ && _) = true => let H' := fresh H in
                              apply andb_prop in H; destruct H as [H H']
         end;
  repeat match goal with
         | K : (_ =? _) = true |- _ => apply Z.eqb_eq in K
         end.

Lemma red_channel r :
  channel r ->
  red_field r = Z.shiftl (top_bits 5 r) 11
  /\ Z.shiftl (Z.land (Z.shiftr (red_field r) 11) 0x1F) 3 = Z.land r 0xF8
  /\ Z.land (Z.shiftr (red_field r) 5) 0x3F = 0
  /\ Z.land (red_field r) 0x1F = 0
  /\ Z.land (red_field r) 0xFFFF = red_field r
  /\ (red_field r = 0 -> r <= 10).
Proof.
  intros Hr. assert (H : red_ok r = true).
  { apply on_bytes; [vm_compute; reflexivity | exact Hr]. }
  unfold red_ok in H. split_checks H. repeat split; try assumption.
  intros Hz. rewrite Hz in *. simpl in H0. now apply Z.leb_le.
Qed.

Lemma green_channel g :
  channel g ->
  green_field g = Z.shiftl (top_bits 6 g) 5
  /\ Z.land (Z.shiftr (green_field g) 11) 0x1F = 0
  /\ Z.shiftl (Z.land (Z.shiftr (green_field g) 5) 0x3F) 2 = Z.land g 0xFC
  /\ Z.land (green_field g) 0x1F = 0
  /\ Z.land (green_field g) 0xFFFF = green_field g
  /\ (green_field g = 0 -> g <= 10).
Proof.
  intros Hg. assert (H : green_ok g = true).
  { apply on_bytes; [vm_compute; reflexivity | exact Hg]. }
  unfold green_ok in H. split_checks H. repeat split; try assumption.
  intros Hz. rewrite Hz in *. simpl in H0. now apply Z.leb_le.
Qed.

Lemma blue_channel b :
  channel b ->
  blue_field b = top_bits 5 b
  /\ Z.land (Z.shiftr (blue_field b) 11) 0x1F = 0
  /\ Z.land (Z.shiftr (blue_field b) 5) 0x3F = 0
  /\ Z.shiftl (Z.land (blue_field b) 0x1F) 3 = Z.land b 0xF8
  /\ Z.land (blue_field b) 0xFFFF = blue_field b
  /\ (blue_field b = 0 -> b <= 10).
Proof.
  intros Hb. assert (H : blue_ok b = true).
  { apply on_bytes; [vm_compute; reflexivity | exact Hb]. }
  unfold blue_ok in H. split_checks H. repeat split; try assumption.
  intros Hz. rewrite Hz in *. simpl in H0. now apply Z.leb_le.
Qed.

(** The packed word never leaves 16 bits. *)
Lemma rgb888_to_rgb565_u16 r g b :
  channel r -> channel g -> channel b ->
  0 <= rgb888_to_rgb565 r g b < 65536.
Proof.
  intros Hr Hg Hb.
  destruct (red_channel r Hr) as (_ & _ & _ & _ & Mr & _).
  destruct (green_channel g Hg) as (_ & _ & _ & _ & Mg & _).
  destruct (blue_channel b Hb) as (_ & _ & _ & _ & Mb & _).
  assert (M : Z.land (rgb888_to_rgb565 r g b) 0xFFFF = rgb888_to_rgb565 r g b).
  { rewrite rgb888_to_rgb565_fields, !Z.land_lor_distr_l, Mr, Mg, Mb. reflexivity. }
  rewrite <- M. change 0xFFFF with (Z.ones 16).
  rewrite Z.land_ones by lia. change 65536 with (2 ^ 16).
  apply Z.mod_pos_bound. lia.
Qed.

(** The encoder is the 5/6/5 packing of the top bits of the channels. *)
Lemma rgb888_to_rgb565_pack r g b :
  channel r -> channel g -> channel b ->
  rgb888_to_rgb565 r g b = pack565 (top_bits 5 r) (top_bits 6 g) (top_bits 5 b).
Proof.
  intros Hr Hg Hb.
  destruct (red_channel r Hr) as (Pr & _).
  destruct (green_channel g Hg) as (Pg & _).
  destruct (blue_channel b Hb) as (Pb & _).
  rewrite rgb888_to_rgb565_fields. unfold pack565. now rewrite Pr, Pg, Pb.
Qed.

(** Decoding reads each field back without interference from the two
    others. *)
Lemma rgb565_decode_encode r g b :
  channel r -> channel g -> channel b ->
  rgb565_to_rgb888 (rgb888_to_rgb565 r g b)
  = (Z.land r 0xF8, Z.land g 0xFC, Z.land b 0xF8).
Proof.
  intros Hr Hg Hb.
  destruct (red_channel r Hr) as (_ & Rr & Rg & Rb & _ & _).
  destruct (green_channel g Hg) as (_ & Gr & Gg & Gb & _ & _).
  destruct (blue_channel b Hb) as (_ & Br & Bg & Bb & _ & _).
  unfold rgb565_to_rgb888. rewrite rgb888_to_rgb565_fields.
  rewrite !Z.shiftr_lor, !Z.land_lor_distr_l.
  rewrite Gr, Br, Rg, Bg, Rb, Gb.
  rewrite !Z.lor_0_r, !Z.lor_0_l.
  now rewrite Rr, Gg, Bb.
Qed.

(** C2. For channels in [0, 255], [rgb888_to_rgb565] is the packing of
    the top 5 bits of red into bits 15..11, the top 6 bits of green into
    bits 10..5 and the top 5 bits of blue into bits 4..0; the result fits
    16 bits, and decoding it by re-expanding each field gives back
    [(r & 0xF8, g & 0xFC, b & 0xF8)]: only the truncated low bits are
    lost.  The function is the same in [convert_emojis_pure.py] and in
    [convert_pngs_to_array.py]. *)
Theorem rgb888_to_rgb565_pack_roundtrip (r g b : Z) :
  channel r -> channel g -> channel b ->
  rgb888_to_rgb565 r g b = pack565 (top_bits 5 r) (top_bits 6 g) (top_bits 5 b)
  /\ 0 <= rgb888_to_rgb565 r g b < 65536
  /\ rgb565_to_rgb888 (rgb888_to_rgb565 r g b)
     = (Z.land r 0xF8, Z.land g 0xFC, Z.land b 0xF8).
Proof.
  intros Hr Hg Hb. split; [|split].
  - now apply rgb888_to_rgb565_pack.
  - now apply rgb888_to_rgb565_u16.
  - now apply rgb565_decode_encode.
Qed.

Lemma rgb888_to_rgb565_pack_roundtrip_witness :
  rgb888_to_rgb565 201 77 14 = pack565 (top_bits 5 201) (top_bits 6 77) (top_bits 5 14)
  /\ 0 <= rgb888_to_rgb565 201 77 14 < 65536
  /\ rgb565_to_rgb888 (rgb888_to_rgb565 201 77 14)
     = (Z.land 201 0xF8, Z.land 77 0xFC, Z.land 14 0xF8).
Proof.
  apply (rgb888_to_rgb565_pack_roundtrip 201 77 14); unfold channel; lia.
Defined.

(** What is lost by the round trip is less than one step of each field:
    8 for red and blue, 4 for green. *)
Lemma rgb565_roundtrip_precision r g b :
  channel r -> channel g -> channel b ->
  let '(r', g', b') := rgb565_to_rgb888 (rgb888_to_rgb565 r g b) in
  (r' <= r < r' + 8) /\ (g' <= g < g' + 4) /\ (b' <= b < b' + 8).
Proof.
  intros Hr Hg Hb.
  rewrite (rgb565_decode_encode r g b Hr Hg Hb).
  assert (low : forall c k m, channel c ->
                  forallb (fun c => (Z.land c m <=? c) && (c <? Z.land c m + k)) bytes = true ->
                  Z.land c m <= c < Z.land c m + k).
  { intros c k m Hc H. pose proof (on_bytes _ H c Hc) as K. simpl in K.
    apply andb_prop in K. destruct K as [K1 K2]. lia. }
  split; [|split]; apply low; try assumption; vm_compute; reflexivity.
Qed.

(** ** What the quantizer emits *)

Lemma quantize_pixel_background bg threshold boost :
  quantize_pixel bg threshold boost bg = 0.
Proof.
  unfold quantize_pixel. now destruct (rgb_eqb_spec bg bg).
Qed.

Lemma quantize_pixel_dark bg threshold boost r g b :
  (r, g, b) <> bg -> r <= threshold -> g <= threshold -> b <= threshold ->
  quantize_pixel bg threshold boost (r, g, b)
  = let '(r', g', b') := boost in rgb888_to_rgb565 r' g' b'.
Proof.
  intros Hbg Hr Hg Hb. unfold quantize_pixel.
  destruct (rgb_eqb_spec (r, g, b) bg) as [E|_]; [contradiction|].
  apply Z.leb_le in Hr, Hg, Hb. now rewrite Hr, Hg, Hb.
Qed.

Lemma quantize_pixel_bright bg threshold boost r g b :
  (r, g, b) <> bg -> threshold < r \/ threshold < g \/ threshold < b ->
  quantize_pixel bg threshold boost (r, g, b) = rgb888_to_rgb565 r g b.
Proof.
  intros Hbg H. unfold quantize_pixel.
  destruct (rgb_eqb_spec (r, g, b) bg) as [E|_]; [contradiction|].
  destruct (Z.leb_spec r threshold), (Z.leb_spec g threshold),
    (Z.leb_spec b threshold); simpl; try reflexivity; lia.
Qed.

(** C1. In any image, a pixel equal to the sentinel background colour
    (255, 0, 255) is emitted as 0x0000 at its row-major position
    [y * width + x] of the output of [pil_to_rgb565_array]. *)
Theorem sentinel_pixel_emits_zero (img : image) (x y : nat) :
  (x < width img)%nat -> (y < height img)%nat ->
  getpixel img x y = (255, 0, 255) ->
  nth_error (pil_to_rgb565_array_default img) (y * width img + x) = Some 0x0000.
Proof.
  intros Hx Hy Hp. unfold pil_to_rgb565_array_default.
  rewrite pil_to_rgb565_array_nth by assumption.
  rewrite Hp.
  change (255, 0, 255) with background_key.
  now rewrite quantize_pixel_background.
Qed.

(** A 2 x 2 image used to exercise the quantizer: sentinel, near-black,
    mid-gray and pure red. *)
Definition sample_image : image :=
  mkImage 2 2 [(255, 0, 255); (3, 10, 0); (128, 128, 128); (255, 0, 0)].

Lemma sentinel_pixel_emits_zero_witness :
  nth_error (pil_to_rgb565_array_default sample_image)
            (0 * width sample_image + 0) = Some 0x0000.
Proof.
  apply (sentinel_pixel_emits_zero sample_image 0 0); simpl; try lia; reflexivity.
Defined.

(** C3. A pixel that is not the sentinel and whose three channels are
    all at most the threshold 10 is emitted as the encoding of the
    dark gray (40, 40, 40); a non-sentinel pixel with some channel above
    10 is emitted as the encoding of its own colour. *)
Theorem dark_pixel_boosted_bright_unchanged (img : image) (x y : nat) (r g b : Z) :
  (x < width img)%nat -> (y < height img)%nat ->
  getpixel img x y = (r, g, b) ->
  (r, g, b) <> (255, 0, 255) ->
  (r <= 10 /\ g <= 10 /\ b <= 10 ->
   nth_error (pil_to_rgb565_array_default img) (y * width img + x)
   = Some (rgb888_to_rgb565 40 40 40))
  /\ (10 < r \/ 10 < g \/ 10 < b ->
      nth_error (pil_to_rgb565_array_default img) (y * width img + x)
      = Some (rgb888_to_rgb565 r g b)).
Proof.
  intros Hx Hy Hp Hbg. unfold pil_to_rgb565_array_default.
  rewrite pil_to_rgb565_array_nth by assumption. rewrite Hp.
  split.
  - intros (Hr & Hg & Hb). f_equal.
    exact (quantize_pixel_dark background_key outline_boost_threshold
                               outline_boost_rgb r g b Hbg Hr Hg Hb).
  - intros H. f_equal.
    exact (quantize_pixel_bright background_key outline_boost_threshold
                                 outline_boost_rgb r g b Hbg H).
Qed.

Lemma dark_pixel_boosted_bright_unchanged_witness :
  (3 <= 10 /\ 10 <= 10 /\ 0 <= 10 ->
   nth_error (pil_to_rgb565_array_default sample_image)
             (0 * width sample_image + 1)
   = Some (rgb888_to_rgb565 40 40 40))
  /\ (10 < 3 \/ 10 < 10 \/ 10 < 0 ->
      nth_error (pil_to_rgb565_array_default sample_image)
                (0 * width sample_image + 1)
      = Some (rgb888_to_rgb565 3 10 0)).
Proof.
  apply (dark_pixel_boosted_bright_unchanged sample_image 1 0 3 10 0);
    simpl; try lia; try reflexivity; discriminate.
Defined.

Example sample_image_quantized :
  pil_to_rgb565_array_default sample_image = [0x0000; 0x2945; 0x8410; 0xF800].
Proof. vm_compute. reflexivity. Qed.

(** A non-sentinel byte pixel never encodes to zero. *)
Lemma quantize_pixel_zero_iff (p : rgb) :
  rgb888 p ->
  quantize_pixel background_key outline_boost_threshold outline_boost_rgb p = 0
  <-> p = background_key.
Proof.
  intros Hp. split.
  - destruct p as [[r g] b]. destruct Hp as (Hr & Hg & Hb).
    intros Hq. destruct (rgb_eqb_spec (r, g, b) background_key) as [E|N]; [exact E|].
    exfalso.
    destruct (Z_le_gt_dec r 10) as [Lr|Lr];
      [destruct (Z_le_gt_dec g 10) as [Lg|Lg];
       [destruct (Z_le_gt_dec b 10) as [Lb|Lb]|]|].
    + rewrite (quantize_pixel_dark _ _ _ r g b N Lr Lg Lb) in Hq.
      vm_compute in Hq. discriminate.
    + rewrite quantize_pixel_bright in Hq
        by (try assumption; unfold outline_boost_threshold; lia).
      rewrite rgb888_to_rgb565_fields in Hq.
      apply Z.lor_eq_0_iff in Hq. destruct Hq as [_ Hq].
      destruct (blue_channel b Hb) as (_ & _ & _ & _ & _ & K). specialize (K Hq). lia.
    + rewrite quantize_pixel_bright in Hq
        by (try assumption; unfold outline_boost_threshold; lia).
      rewrite rgb888_to_rgb565_fields in Hq.
      apply Z.lor_eq_0_iff in Hq. destruct Hq as [Hq _].
      apply Z.lor_eq_0_iff in Hq. destruct Hq as [_ Hq].
      destruct (green_channel g Hg) as (_ & _ & _ & _ & _ & K). specialize (K Hq). lia.
    + rewrite quantize_pixel_bright in Hq
        by (try assumption; unfold outline_boost_threshold; lia).
      rewrite rgb888_to_rgb565_fields in Hq.
      apply Z.lor_eq_0_iff in Hq. destruct Hq as [Hq _].
      apply Z.lor_eq_0_iff in Hq. destruct Hq as [Hq _].
      destruct (red_channel r Hr) as (_ & _ & _ & _ & _ & K). specialize (K Hq). lia.
  - intros ->. apply quantize_pixel_background.
Qed.

(** C10. In the output of [pil_to_rgb565_array], 0x0000 stands at the
    position of a pixel exactly when that pixel is the sentinel
    background colour: the value is reserved for the sentinel. *)
Theorem zero_reserved_for_sentinel (img : image) (x y : nat) :
  wf_image img ->
  (x < width img)%nat -> (y < height img)%nat ->
  nth_error (pil_to_rgb565_array_default img) (y * width img + x) = Some 0x0000
  <-> getpixel img x y = (255, 0, 255).
Proof.
  intros Hwf Hx Hy. unfold pil_to_rgb565_array_default.
  rewrite pil_to_rgb565_array_nth by assumption.
  pose proof (quantize_pixel_zero_iff _ (getpixel_rgb888 img x y Hwf Hx Hy)) as Hz.
  split.
  - intros H. apply Hz. congruence.
  - intros H. f_equal. now apply Hz.
Qed.

Lemma zero_reserved_for_sentinel_witness :
  nth_error (pil_to_rgb565_array_default sample_image)
            (0 * width sample_image + 0) = Some 0x0000
  <-> getpixel sample_image 0 0 = (255, 0, 255).
Proof.
  apply (zero_reserved_for_sentinel sample_image 0 0).
  - split; [reflexivity|]. repeat constructor; unfold channel; lia.
  - simpl; lia.
  - simpl; lia.
Defined.

(* ------------------------------------------------------------------ *)
(** * Properties of the centering post-process                         *)
(* ------------------------------------------------------------------ *)

(** ** Rounding of half-integers *)

(** [round] on a half-integer [n / 2], computed on the numerator. *)
Definition round_half_even (n : Z) : Z :=
  if Z.even n then n / 2 else if Z.even (n / 2) then n / 2 else n / 2 + 1.

Lemma py_round_half_diff (a b : Z) :
  py_round (inject_Z a / 2 - inject_Z b / 2) = round_half_even (a - b).
Proof.
  unfold py_round, round_half_even.
  unfold Qfloor, Qcompare, Qminus, Qdiv, Qplus, Qmult, Qinv, Qopp, inject_Z.
  simpl.
  replace (a * 1 * 2 + - (b * 1) * 2) with (2 * (a - b)) by ring.
  set (n := a - b).
  assert (Hq : 2 * n / 4 = n / 2) by (Z.div_mod_to_equations; lia).
  rewrite Hq.
  pose proof (Zmod_even n) as Hm.
  destruct (Z.even n) eqn:En;
    destruct (Z.compare_spec ((2 * n * 1 + - (n / 2) * 4) * 2) 4);
    try reflexivity; Z.div_mod_to_equations; lia.
Qed.

(** After the shift by the rounded offset, what is left to shift is at
    most half a pixel, which rounds to zero. *)
Lemma round_half_even_residual (n : Z) :
  round_half_even (n - 2 * round_half_even n) = 0.
Proof.
  unfold round_half_even at 2.
  pose proof (Zmod_even n) as Hn. pose proof (Zmod_even (n / 2)) as Hh.
  destruct (Z.even n); [|destruct (Z.even (n / 2))].
  - replace (n - 2 * (n / 2)) with 0 by (Z.div_mod_to_equations; lia).
    reflexivity.
  - replace (n - 2 * (n / 2)) with 1 by (Z.div_mod_to_equations; lia).
    reflexivity.
  - replace (n - 2 * (n / 2 + 1)) with (-1) by (Z.div_mod_to_equations; lia).
    reflexivity.
Qed.

(** The rounded offset keeps an interval of the canvas inside it. *)
Lemma round_half_even_fits (lo hi size : Z) :
  0 <= lo -> lo <= hi -> hi <= size - 1 ->
  0 <= lo + round_half_even (size - 1 - (lo + hi))
  /\ hi + round_half_even (size - 1 - (lo + hi)) <= size - 1.
Proof.
  intros H0 H1 H2. unfold round_half_even.
  set (n := size - 1 - (lo + hi)).
  pose proof (Zmod_even n) as Hn.
  destruct (Z.even n); [|destruct (Z.even (n / 2))];
    subst n; Z.div_mod_to_equations; lia.
Qed.

(** ** The bounding-box scan *)

(** The coordinates [(y, x)] in the order the two loops visit them. *)
Definition coords (w h : nat) : list (nat * nat) :=
  flat_map (fun y => map (pair y) (seq 0 w)) (seq 0 h).

Lemma in_coords (w h x y : nat) :
  In (y, x) (coords w h) <-> (x < w)%nat /\ (y < h)%nat.
Proof.
  unfold coords. rewrite in_flat_map. split.
  - intros (y' & Hy & Hin). apply in_map_iff in Hin.
    destruct Hin as (x' & E & Hx). inversion E; subst.
    apply in_seq in Hy, Hx. lia.
  - intros [Hx Hy]. exists y. split; [apply in_seq; lia|].
    apply in_map. apply in_seq. lia.
Qed.

Lemma fold_left_nested_coords {S : Type} (f : nat -> nat -> S -> S)
      (xs ys : list nat) (s0 : S) :
  fold_left (fun s y => fold_left (fun s x => f y x s) xs s) ys s0
  = fold_left (fun s p => f (fst p) (snd p) s)
              (flat_map (fun y => map (pair y) xs) ys) s0.
Proof.
  revert s0. induction ys as [|y ys IH]; intros s0; simpl; [reflexivity|].
  rewrite fold_left_app, <- IH. f_equal.
  clear IH. revert s0. induction xs as [|x xs IHx]; intros s0; simpl; auto.
Qed.

(** The scan over an arbitrary list of coordinates, from any state. *)
Definition scan (img : image) (bg : rgb) (cs : list (nat * nat)) (b : bbox) : bbox :=
  fold_left (fun b p => bbox_step img bg (fst p) (snd p) b) cs b.

Lemma visible_bbox_scan img bg :
  visible_bbox img bg
  = scan img bg (coords (width img) (height img))
         (mkBbox (Z.of_nat (width img)) (Z.of_nat (height img)) (-1) (-1)).
Proof.
  unfold visible_bbox, scan, coords.
  apply (fold_left_nested_coords (bbox_step img bg)).
Qed.

Lemma bbox_step_background img bg y x b :
  getpixel img x y = bg -> bbox_step img bg y x b = b.
Proof.
  intros H. unfold bbox_step. now destruct (rgb_eqb_spec (getpixel img x y) bg).
Qed.

Lemma bbox_step_visible img bg y x b :
  getpixel img x y <> bg ->
  bbox_step img bg y x b
  = mkBbox (Z.min (Z.of_nat x) (min_x b)) (Z.min (Z.of_nat y) (min_y b))
           (Z.max (Z.of_nat x) (max_x b)) (Z.max (Z.of_nat y) (max_y b)).
Proof.
  intros H. unfold bbox_step.
  destruct (rgb_eqb_spec (getpixel img x y) bg) as [E|_]; [contradiction|].
  rewrite !Z.gtb_ltb.
  f_equal.
  - destruct (Z.ltb_spec (Z.of_nat x) (min_x b)); lia.
  - destruct (Z.ltb_spec (Z.of_nat y) (min_y b)); lia.
  - destruct (Z.ltb_spec (max_x b) (Z.of_nat x)); lia.
  - destruct (Z.ltb_spec (max_y b) (Z.of_nat y)); lia.
Qed.

Lemma scan_blank img bg cs b :
  (forall p, In p cs -> getpixel img (snd p) (fst p) = bg) ->
  scan img bg cs b = b.
Proof.
  revert b. induction cs as [|p cs IH]; intros b H; [reflexivity|].
  unfold scan. simpl. rewrite bbox_step_background by (apply H; now left).
  apply IH. intros q Hq. apply H. now right.
Qed.

Lemma scan_cons img bg p cs b :
  scan img bg (p :: cs) b = scan img bg cs (bbox_step img bg (fst p) (snd p) b).
Proof. reflexivity. Qed.

(** The box only grows. *)
Lemma scan_mono img bg cs b :
  min_x (scan img bg cs b) <= min_x b /\ min_y (scan img bg cs b) <= min_y b
  /\ max_x b <= max_x (scan img bg cs b) /\ max_y b <= max_y (scan img bg cs b).
Proof.
  revert b. induction cs as [|[y x] cs IH]; intros b; [simpl; lia|].
  rewrite scan_cons. specialize (IH (bbox_step img bg y x b)). simpl fst in *.
  simpl snd in *.
  destruct (rgb_eqb_spec (getpixel img x y) bg) as [E|N].
  - now rewrite bbox_step_background in IH |- * by assumption.
  - rewrite bbox_step_visible in IH |- * by assumption. simpl in IH. lia.
Qed.

(** Every visible pixel scanned lies in the box. *)
Lemma scan_covers img bg cs b x y :
  In (y, x) cs -> getpixel img x y <> bg ->
  min_x (scan img bg cs b) <= Z.of_nat x <= max_x (scan img bg cs b)
  /\ min_y (scan img bg cs b) <= Z.of_nat y <= max_y (scan img bg cs b).
Proof.
  revert b. induction cs as [|p cs IH]; intros b Hin Hv; [contradiction|].
  rewrite scan_cons. destruct Hin as [->|Hin].
  - simpl. rewrite bbox_step_visible by assumption.
    pose proof (scan_mono img bg cs
                  (mkBbox (Z.min (Z.of_nat x) (min_x b)) (Z.min (Z.of_nat y) (min_y b))
                          (Z.max (Z.of_nat x) (max_x b)) (Z.max (Z.of_nat y) (max_y b))))
      as M. simpl in M. lia.
  - now apply IH.
Qed.

(** A bound of the box is either the one the scan started from or the
    coordinate of a visible pixel it met. *)
Definition met (img : image) (bg : rgb) (cs : list (nat * nat))
           (coord : nat * nat -> nat) (v : Z) : Prop :=
  exists p, In p cs /\ getpixel img (snd p) (fst p) <> bg /\ Z.of_nat (coord p) = v.

Lemma met_cons img bg p cs coord v :
  met img bg cs coord v -> met img bg (p :: cs) coord v.
Proof.
  intros (q & Hq & H). exists q. split; [now right|exact H].
Qed.

Lemma scan_attained img bg cs b :
  (min_x (scan img bg cs b) = min_x b \/ met img bg cs snd (min_x (scan img bg cs b)))
  /\ (min_y (scan img bg cs b) = min_y b \/ met img bg cs fst (min_y (scan img bg cs b)))
  /\ (max_x (scan img bg cs b) = max_x b \/ met img bg cs snd (max_x (scan img bg cs b)))
  /\ (max_y (scan img bg cs b) = max_y b \/ met img bg cs fst (max_y (scan img bg cs b))).
Proof.
  revert b. induction cs as [|[y x] cs IH]; intros b; [simpl; tauto|].
  rewrite scan_cons. simpl fst. simpl snd.
  specialize (IH (bbox_step img bg y x b)).
  destruct (rgb_eqb_spec (getpixel img x y) bg) as [E|N].
  - rewrite bbox_step_background in IH |- * by assumption.
    destruct IH as (A & B & C & D).
    repeat split;
      match goal with
      | H : ?l = ?r \/ _ |- ?l = ?r \/ _ =>
          destruct H as [H|H]; [left; exact H | right; apply met_cons; exact H]
      end.
  - rewrite bbox_step_visible in IH |- * by assumption. simpl in IH.
    set (b1 := mkBbox (Z.min (Z.of_nat x) (min_x b)) (Z.min (Z.of_nat y) (min_y b))
                      (Z.max (Z.of_nat x) (max_x b)) (Z.max (Z.of_nat y) (max_y b))) in *.
    assert (Here : forall coord, met img bg ((y, x) :: cs) coord (Z.of_nat (coord (y, x)))).
    { intros coord. exists (y, x). split; [now left|]. split; [exact N|reflexivity]. }
    destruct IH as (A & B & C & D).
    split; [|split; [|split]].
    + destruct A as [A|A]; [|right; now apply met_cons].
      rewrite A. destruct (Z.min_spec (Z.of_nat x) (min_x b)) as [[_ ->]|[_ ->]];
        [right; apply (Here snd) | now left].
    + destruct B as [B|B]; [|right; now apply met_cons].
      rewrite B. destruct (Z.min_spec (Z.of_nat y) (min_y b)) as [[_ ->]|[_ ->]];
        [right; apply (Here fst) | now left].
    + destruct C as [C|C]; [|right; now apply met_cons].
      rewrite C. destruct (Z.max_spec (Z.of_nat x) (max_x b)) as [[_ ->]|[_ ->]];
        [now left | right; apply (Here snd)].
    + destruct D as [D|D]; [|right; now apply met_cons].
      rewrite D. destruct (Z.max_spec (Z.of_nat y) (max_y b)) as [[_ ->]|[_ ->]];
        [now left | right; apply (Here fst)].
Qed.

(** ** The tight bounding box of the visible pixels *)

(** A pixel of the image that is not the background. *)
Definition visible_at (img : image) (bg : rgb) (x y : nat) : Prop :=
  (x < width img)%nat /\ (y < height img)%nat /\ getpixel img x y <> bg.

(** [b] is the tight bounding box of the set [V] of pixels: it contains
    [V] and each of its four sides touches a pixel of [V]. *)
Definition is_bbox (V : nat -> nat -> Prop) (b : bbox) : Prop :=
  (forall x y, V x y ->
               min_x b <= Z.of_nat x <= max_x b /\ min_y b <= Z.of_nat y <= max_y b)
  /\ (exists x y, V x y /\ Z.of_nat x = min_x b)
  /\ (exists x y, V x y /\ Z.of_nat y = min_y b)
  /\ (exists x y, V x y /\ Z.of_nat x = max_x b)
  /\ (exists x y, V x y /\ Z.of_nat y = max_y b).

Lemma is_bbox_unique V b b' : is_bbox V b -> is_bbox V b' -> b = b'.
Proof.
  intros (In1 & (x1 & y1 & V1 & E1) & (x2 & y2 & V2 & E2)
          & (x3 & y3 & V3 & E3) & (x4 & y4 & V4 & E4))
         (In2 & (x1' & y1' & V1' & E1') & (x2' & y2' & V2' & E2')
          & (x3' & y3' & V3' & E3') & (x4' & y4' & V4' & E4')).
  pose proof (In1 _ _ V1'). pose proof (In1 _ _ V2').
  pose proof (In1 _ _ V3'). pose proof (In1 _ _ V4').
  pose proof (In2 _ _ V1). pose proof (In2 _ _ V2).
  pose proof (In2 _ _ V3). pose proof (In2 _ _ V4).
  destruct b, b'; simpl in *. f_equal; lia.
Qed.

Lemma is_bbox_ordered V b :
  is_bbox V b -> min_x b <= max_x b /\ min_y b <= max_y b /\ 0 <= min_x b /\ 0 <= min_y b.
Proof.
  intros (In1 & (x1 & y1 & V1 & E1) & (x2 & y2 & V2 & E2) & _).
  pose proof (In1 _ _ V1). pose proof (In1 _ _ V2). lia.
Qed.

(** With no visible pixel the scan leaves its four variables as they
    were initialised. *)
Lemma visible_bbox_blank img bg :
  (forall x y, (x < width img)%nat -> (y < height img)%nat -> getpixel img x y = bg) ->
  visible_bbox img bg
  = mkBbox (Z.of_nat (width img)) (Z.of_nat (height img)) (-1) (-1).
Proof.
  intros H. rewrite visible_bbox_scan. apply scan_blank.
  intros [y x] Hin. apply in_coords in Hin. simpl. now apply H.
Qed.

(** With a visible pixel the scan computes the tight bounding box. *)
Lemma visible_bbox_is_bbox img bg :
  (exists x y, visible_at img bg x y) ->
  is_bbox (visible_at img bg) (visible_bbox img bg).
Proof.
  intros (x0 & y0 & Hx0 & Hy0 & Hv0).
  rewrite visible_bbox_scan.
  set (cs := coords (width img) (height img)).
  set (b0 := mkBbox (Z.of_nat (width img)) (Z.of_nat (height img)) (-1) (-1)).
  assert (Cov : forall x y, visible_at img bg x y ->
                  min_x (scan img bg cs b0) <= Z.of_nat x <= max_x (scan img bg cs b0)
                  /\ min_y (scan img bg cs b0) <= Z.of_nat y <= max_y (scan img bg cs b0)).
  { intros x y (Hx & Hy & Hv). apply scan_covers; [|exact Hv].
    apply in_coords. now split. }
  assert (Met : forall coord v, met img bg cs coord v ->
                  exists x y, visible_at img bg x y /\ Z.of_nat (coord (y, x)) = v).
  { intros coord v ([y x] & Hin & Hv & E). apply in_coords in Hin.
    exists x, y. simpl in Hv. unfold visible_at. tauto. }
  pose proof (Cov x0 y0 (conj Hx0 (conj Hy0 Hv0))) as C0.
  destruct (scan_attained img bg cs b0) as (A & B & C & D). simpl in A, B, C, D.
  split; [exact Cov|].
  split; [|split; [|split]].
  - destruct A as [A|A]; [lia|]. exact (Met snd _ A).
  - destruct B as [B|B]; [lia|]. exact (Met fst _ B).
  - destruct C as [C|C]; [lia|]. exact (Met snd _ C).
  - destruct D as [D|D]; [lia|]. exact (Met fst _ D).
Qed.

(** An image either has a visible pixel or is background everywhere. *)
Lemma visible_or_blank img bg :
  (exists x y, visible_at img bg x y)
  \/ (forall x y, (x < width img)%nat -> (y < height img)%nat -> getpixel img x y = bg).
Proof.
  destruct (existsb (fun p => negb (rgb_eqb (getpixel img (snd p) (fst p)) bg))
                    (coords (width img) (height img))) eqn:E.
  - left. apply existsb_exists in E. destruct E as ([y x] & Hin & Hv).
    apply in_coords in Hin. exists x, y. simpl in Hv.
    destruct (rgb_eqb_spec (getpixel img x y) bg); [discriminate|].
    unfold visible_at. tauto.
  - right. intros x y Hx Hy.
    destruct (rgb_eqb_spec (getpixel img x y) bg) as [E'|N]; [exact E'|].
    exfalso. rewrite <- not_true_iff_false in E. apply E.
    apply existsb_exists. exists (y, x). split; [apply in_coords; now split|].
    simpl. now destruct (rgb_eqb_spec (getpixel img x y) bg).
Qed.

(** C9. When every pixel of the image is the sentinel background colour,
    [center_by_visible_pixels] returns the image as it is, all pixels
    unchanged. *)
Theorem center_background_only_unchanged (img : image) :
  (forall x y, (x < width img)%nat -> (y < height img)%nat ->
               getpixel img x y = (255, 0, 255)) ->
  center_by_visible_pixels img background_key = img.
Proof.
  intros H. unfold center_by_visible_pixels.
  rewrite (visible_bbox_blank img background_key H). simpl.
  destruct (Z.ltb_spec (-1) (Z.of_nat (width img))); [reflexivity|lia].
Qed.

Lemma center_background_only_unchanged_witness :
  center_by_visible_pixels (Image_new 3 2 (255, 0, 255)) background_key
  = Image_new 3 2 (255, 0, 255).
Proof.
  apply (center_background_only_unchanged (Image_new 3 2 (255, 0, 255))).
  intros x y Hx Hy. simpl in Hx, Hy. unfold getpixel. simpl.
  destruct y as [|[|y]]; [| |lia]; destruct x as [|[|[|x]]]; try lia; reflexivity.
Defined.

(** ** Pasting *)

Lemma getpixel_grid (w h : nat) (px : nat -> nat -> rgb) (x y : nat) :
  (x < w)%nat -> (y < h)%nat ->
  getpixel (mkImage w h (grid w h px)) x y = px y x.
Proof.
  intros Hx Hy. unfold getpixel, grid. simpl.
  apply nth_error_nth.
  now rewrite (nth_error_grid px w h 0 y x Hy Hx).
Qed.

Lemma getpixel_Image_new (w h : nat) (c : rgb) (x y : nat) :
  (x < w)%nat -> (y < h)%nat -> getpixel (Image_new w h c) x y = c.
Proof.
  intros Hx Hy. unfold getpixel, Image_new. simpl.
  apply nth_repeat_lt. nia.
Qed.

Lemma grid_ext (w h : nat) (px px' : nat -> nat -> rgb) :
  (forall x y, (x < w)%nat -> (y < h)%nat -> px y x = px' y x) ->
  grid w h px = grid w h px'.
Proof.
  intros H. unfold grid. rewrite !flat_map_concat_map. f_equal.
  apply map_ext_in. intros y Hy.
  apply map_ext_in. intros x Hx. apply in_seq in Hx, Hy. apply H; lia.
Qed.

(** The pixel of a pasted canvas, inside the canvas. *)
Lemma getpixel_paste dst src dx dy (x y : nat) :
  (x < width dst)%nat -> (y < height dst)%nat ->
  getpixel (paste dst src dx dy) x y
  = if (0 <=? Z.of_nat x - dx) && (Z.of_nat x - dx <? Z.of_nat (width src))
       && (0 <=? Z.of_nat y - dy) && (Z.of_nat y - dy <? Z.of_nat (height src))
    then getpixel src (Z.to_nat (Z.of_nat x - dx)) (Z.to_nat (Z.of_nat y - dy))
    else getpixel dst x y.
Proof.
  intros Hx Hy. unfold paste. now rewrite getpixel_grid.
Qed.

(** Pasting an image at offset (0, 0) onto a fresh canvas of its size
    reproduces it. *)
Lemma paste_origin (w h : nat) (px : nat -> nat -> rgb) (bg : rgb) :
  paste (Image_new w h bg) (mkImage w h (grid w h px)) 0 0
  = mkImage w h (grid w h px).
Proof.
  unfold paste. simpl. f_equal. apply grid_ext. intros x y Hx Hy.
  rewrite !Z.sub_0_r, !Nat2Z.id.
  destruct (Z.leb_spec 0 (Z.of_nat x)); [|lia].
  destruct (Z.ltb_spec (Z.of_nat x) (Z.of_nat w)); [|lia].
  destruct (Z.leb_spec 0 (Z.of_nat y)); [|lia].
  destruct (Z.ltb_spec (Z.of_nat y) (Z.of_nat h)); [|lia].
  simpl. now apply getpixel_grid.
Qed.

(** ** One application of the centering *)

Definition shift_bbox (b : bbox) (dx dy : Z) : bbox :=
  mkBbox (min_x b + dx) (min_y b + dy) (max_x b + dx) (max_y b + dy).

(** The offsets [dx], [dy] that [center_by_visible_pixels] computes. *)
Definition center_dx (img : image) (bg : rgb) : Z :=
  round_half_even (Z.of_nat (width img) - 1
                   - (min_x (visible_bbox img bg) + max_x (visible_bbox img bg))).

Definition center_dy (img : image) (bg : rgb) : Z :=
  round_half_even (Z.of_nat (height img) - 1
                   - (min_y (visible_bbox img bg) + max_y (visible_bbox img bg))).

Lemma center_blank img bg :
  (forall x y, (x < width img)%nat -> (y < height img)%nat -> getpixel img x y = bg) ->
  center_by_visible_pixels img bg = img.
Proof.
  intros H. unfold center_by_visible_pixels.
  rewrite (visible_bbox_blank img bg H). simpl.
  destruct (Z.ltb_spec (-1) (Z.of_nat (width img))); [reflexivity|lia].
Qed.

Lemma center_visible img bg :
  (exists x y, visible_at img bg x y) ->
  center_by_visible_pixels img bg
  = paste (Image_new (width img) (height img) bg) img
          (center_dx img bg) (center_dy img bg).
Proof.
  intros Hv. apply visible_bbox_is_bbox in Hv.
  destruct (is_bbox_ordered _ _ Hv) as (Hx & Hy & _).
  unfold center_by_visible_pixels, center_dx, center_dy.
  destruct (Z.ltb_spec (max_x (visible_bbox img bg)) (min_x (visible_bbox img bg)));
    [lia|].
  destruct (Z.ltb_spec (max_y (visible_bbox img bg)) (min_y (visible_bbox img bg)));
    [lia|].
  simpl. now rewrite !py_round_half_diff.
Qed.

(** The sides of the box are inside the canvas. *)
Lemma is_bbox_in_canvas img bg b :
  is_bbox (visible_at img bg) b ->
  0 <= min_x b /\ min_x b <= max_x b /\ max_x b <= Z.of_nat (width img) - 1
  /\ 0 <= min_y b /\ min_y b <= max_y b /\ max_y b <= Z.of_nat (height img) - 1.
Proof.
  intros Hb. destruct (is_bbox_ordered _ _ Hb) as (A & B & C & D).
  destruct Hb as (_ & _ & _ & (x3 & y3 & (V3 & _) & E3) & (x4 & y4 & (_ & V4 & _) & E4)).
  lia.
Qed.

(** The paste clips nothing visible: the box of the centered image is
    the box of the image, moved by the offset. *)
Lemma centered_bbox img bg :
  (exists x y, visible_at img bg x y) ->
  is_bbox (visible_at (center_by_visible_pixels img bg) bg)
          (shift_bbox (visible_bbox img bg) (center_dx img bg) (center_dy img bg)).
Proof.
  intros Hv. rewrite (center_visible img bg Hv).
  apply visible_bbox_is_bbox in Hv.
  set (b := visible_bbox img bg) in *.
  set (dx := center_dx img bg). set (dy := center_dy img bg).
  destruct (is_bbox_in_canvas img bg b Hv) as (X0 & X1 & X2 & Y0 & Y1 & Y2).
  destruct (round_half_even_fits _ _ _ X0 X1 X2) as [FX0 FX1].
  destruct (round_half_even_fits _ _ _ Y0 Y1 Y2) as [FY0 FY1].
  fold b in FX0, FX1, FY0, FY1.
  change (round_half_even (Z.of_nat (width img) - 1 - (min_x b + max_x b)))
    with dx in FX0, FX1.
  change (round_half_even (Z.of_nat (height img) - 1 - (min_y b + max_y b)))
    with dy in FY0, FY1.
  set (img' := paste (Image_new (width img) (height img) bg) img dx dy).
  (* a visible pixel of the image is visible, moved, in the pasted one *)
  assert (Fwd : forall x y, visible_at img bg x y ->
                  visible_at img' bg (Z.to_nat (Z.of_nat x + dx))
                             (Z.to_nat (Z.of_nat y + dy))
                  /\ 0 <= Z.of_nat x + dx /\ 0 <= Z.of_nat y + dy).
  { intros x y Hxy. destruct Hv as (Cov & _).
    pose proof (Cov x y Hxy) as Hin. destruct Hxy as (Hx & Hy & Hp).
    assert (Hx' : (Z.to_nat (Z.of_nat x + dx) < width img)%nat) by lia.
    assert (Hy' : (Z.to_nat (Z.of_nat y + dy) < height img)%nat) by lia.
    split; [|lia]. split; [exact Hx'|]. split; [exact Hy'|].
    unfold img'. rewrite getpixel_paste by assumption.
    rewrite !Z2Nat.id by lia.
    replace (Z.of_nat x + dx - dx) with (Z.of_nat x) by lia.
    replace (Z.of_nat y + dy - dy) with (Z.of_nat y) by lia.
    rewrite !Nat2Z.id.
    destruct (Z.leb_spec 0 (Z.of_nat x)); [|lia].
    destruct (Z.ltb_spec (Z.of_nat x) (Z.of_nat (width img))); [|lia].
    destruct (Z.leb_spec 0 (Z.of_nat y)); [|lia].
    destruct (Z.ltb_spec (Z.of_nat y) (Z.of_nat (height img))); [|lia].
    exact Hp. }
  (* a visible pixel of the pasted image comes from one of the image *)
  assert (Bwd : forall x y, visible_at img' bg x y ->
                  visible_at img bg (Z.to_nat (Z.of_nat x - dx))
                             (Z.to_nat (Z.of_nat y - dy))
                  /\ 0 <= Z.of_nat x - dx /\ 0 <= Z.of_nat y - dy).
  { intros x y (Hx & Hy & Hp). simpl in Hx, Hy.
    unfold img' in Hp. rewrite getpixel_paste in Hp by assumption.
    destruct (Z.leb_spec 0 (Z.of_nat x - dx));
      [|simpl in Hp; rewrite getpixel_Image_new in Hp by assumption; contradiction].
    destruct (Z.ltb_spec (Z.of_nat x - dx) (Z.of_nat (width img)));
      [|simpl in Hp; rewrite getpixel_Image_new in Hp by assumption; contradiction].
    destruct (Z.leb_spec 0 (Z.of_nat y - dy));
      [|simpl in Hp; rewrite getpixel_Image_new in Hp by assumption; contradiction].
    destruct (Z.ltb_spec (Z.of_nat y - dy) (Z.of_nat (height img)));
      [|simpl in Hp; rewrite getpixel_Image_new in Hp by assumption; contradiction].
    simpl in Hp. unfold visible_at. repeat split; try lia. exact Hp. }
  destruct Hv as (Cov & (x1 & y1 & V1 & E1) & (x2 & y2 & V2 & E2)
                  & (x3 & y3 & V3 & E3) & (x4 & y4 & V4 & E4)).
  split; [|split; [|split; [|split]]].
  - intros x y Hxy. destruct (Bwd x y Hxy) as (Hsrc & Px & Py).
    pose proof (Cov _ _ Hsrc) as Hin. simpl. lia.
  - destruct (Fwd _ _ V1) as (H & Px & Py). do 2 eexists. split; [exact H|].
    simpl. lia.
  - destruct (Fwd _ _ V2) as (H & Px & Py). do 2 eexists. split; [exact H|].
    simpl. lia.
  - destruct (Fwd _ _ V3) as (H & Px & Py). do 2 eexists. split; [exact H|].
    simpl. lia.
  - destruct (Fwd _ _ V4) as (H & Px & Py). do 2 eexists. split; [exact H|].
    simpl. lia.
Qed.

(** On a centered image the scan finds the moved box. *)
Lemma visible_bbox_centered img bg :
  (exists x y, visible_at img bg x y) ->
  (exists x y, visible_at (center_by_visible_pixels img bg) bg x y)
  /\ visible_bbox (center_by_visible_pixels img bg) bg
     = shift_bbox (visible_bbox img bg) (center_dx img bg) (center_dy img bg).
Proof.
  intros Hv. pose proof (centered_bbox img bg Hv) as Hb.
  assert (Hv' : exists x y, visible_at (center_by_visible_pixels img bg) bg x y).
  { destruct Hb as (_ & (x & y & V & _) & _). now exists x, y. }
  split; [exact Hv'|].
  apply (is_bbox_unique (visible_at (center_by_visible_pixels img bg) bg));
    [now apply visible_bbox_is_bbox | exact Hb].
Qed.

(** Centering keeps the size of the image. *)
Lemma center_size img bg :
  width (center_by_visible_pixels img bg) = width img
  /\ height (center_by_visible_pixels img bg) = height img.
Proof.
  destruct (visible_or_blank img bg) as [Hv|Hb].
  - rewrite (center_visible img bg Hv). split; reflexivity.
  - rewrite (center_blank img bg Hb). split; reflexivity.
Qed.

(** The offset the second application computes is (0, 0). *)
Lemma center_second_offset_zero img bg :
  (exists x y, visible_at img bg x y) ->
  center_dx (center_by_visible_pixels img bg) bg = 0
  /\ center_dy (center_by_visible_pixels img bg) bg = 0.
Proof.
  intros Hv. destruct (visible_bbox_centered img bg Hv) as [_ Hbox].
  destruct (center_size img bg) as [Hw Hh].
  unfold center_dx at 1, center_dy at 1. rewrite Hbox, Hw, Hh. simpl. split.
  - replace (Z.of_nat (width img) - 1
             - (min_x (visible_bbox img bg) + center_dx img bg
                + (max_x (visible_bbox img bg) + center_dx img bg)))
      with (Z.of_nat (width img) - 1
            - (min_x (visible_bbox img bg) + max_x (visible_bbox img bg))
            - 2 * center_dx img bg) by lia.
    apply round_half_even_residual.
  - replace (Z.of_nat (height img) - 1
             - (min_y (visible_bbox img bg) + center_dy img bg
                + (max_y (visible_bbox img bg) + center_dy img bg)))
      with (Z.of_nat (height img) - 1
            - (min_y (visible_bbox img bg) + max_y (visible_bbox img bg))
            - 2 * center_dy img bg) by lia.
    apply round_half_even_residual.
Qed.

(** C4. Applying [center_by_visible_pixels] twice gives the same image as
    applying it once: after one application the bounding box of the
    visible pixels is centered up to rounding, so the second application
    computes the offset (0, 0) and leaves the image unchanged. *)
Theorem center_by_visible_pixels_idempotent (img : image) (bg : rgb) :
  center_by_visible_pixels (center_by_visible_pixels img bg) bg
  = center_by_visible_pixels img bg
  /\ ((exists x y, visible_at img bg x y) ->
      center_dx (center_by_visible_pixels img bg) bg = 0
      /\ center_dy (center_by_visible_pixels img bg) bg = 0).
Proof.
  split; [|apply center_second_offset_zero].
  destruct (visible_or_blank img bg) as [Hv|Hb].
  - destruct (visible_bbox_centered img bg Hv) as [Hv' _].
    destruct (center_second_offset_zero img bg Hv) as [Hdx Hdy].
    rewrite (center_visible _ bg Hv'), Hdx, Hdy.
    rewrite (center_visible img bg Hv).
    apply paste_origin.
  - now rewrite !(center_blank img bg Hb).
Qed.

(** An off-centre 4 x 3 drawing: centering moves it one column to the
    right, and a second pass leaves it there. *)
Definition corner_image : image :=
  mkImage 4 3 [ (1, 1, 1); (255, 0, 255); (255, 0, 255); (255, 0, 255);
                (2, 2, 2); (3, 3, 3); (255, 0, 255); (255, 0, 255);
                (255, 0, 255); (255, 0, 255); (255, 0, 255); (255, 0, 255) ].

Example corner_image_centered :
  center_by_visible_pixels corner_image background_key
  = mkImage 4 3 [ (255, 0, 255); (1, 1, 1); (255, 0, 255); (255, 0, 255);
                  (255, 0, 255); (2, 2, 2); (3, 3, 3); (255, 0, 255);
                  (255, 0, 255); (255, 0, 255); (255, 0, 255); (255, 0, 255) ].
Proof. vm_compute. reflexivity. Qed.

Lemma center_by_visible_pixels_idempotent_witness :
  center_by_visible_pixels (center_by_visible_pixels corner_image background_key)
                           background_key
  = center_by_visible_pixels corner_image background_key
  /\ ((exists x y, visible_at corner_image background_key x y) ->
      center_dx (center_by_visible_pixels corner_image background_key)
                background_key = 0
      /\ center_dy (center_by_visible_pixels corner_image background_key)
                   background_key = 0).
Proof.
  exact (center_by_visible_pixels_idempotent corner_image background_key).
Defined.

(* ------------------------------------------------------------------ *)
(** * Properties of the selection step                                 *)
(* ------------------------------------------------------------------ *)

Lemma mem_In (c : string) (s : list string) : mem c s = true <-> In c s.
Proof.
  unfold mem. rewrite existsb_exists. split.
  - intros (d & Hd & E). apply String.eqb_eq in E. now subst.
  - intros H. exists c. split; [exact H|apply String.eqb_refl].
Qed.

Lemma in_insert_by_key c d l : In c (insert_by_key d l) <-> c = d \/ In c l.
Proof.
  induction l as [|e l IH]; simpl.
  - intuition congruence.
  - destruct (sort_key_leb d e); simpl; [intuition congruence|].
    rewrite IH. intuition congruence.
Qed.

(** Sorting visits every element of the set. *)
Lemma in_sorted_by_key c available :
  In c (sorted_by_key available) <-> In c available.
Proof.
  unfold sorted_by_key. rewrite <- (nodup_In string_dec available c).
  induction (nodup string_dec available) as [|d l IH]; simpl; [tauto|].
  rewrite in_insert_by_key, IH. intuition congruence.
Qed.

(** The number of face-like codes in a list. *)
Definition faces (l : list string) : Z :=
  Z.of_nat (length (filter _is_face_like l)).

Definition non_faces (l : list string) : Z :=
  Z.of_nat (length (filter (fun c => negb (_is_face_like c)) l)).

Lemma faces_non_faces l : faces l + non_faces l = Z.of_nat (length l).
Proof.
  unfold faces, non_faces. rewrite <- (filter_length _is_face_like l). lia.
Qed.

Lemma faces_app l c :
  faces (l ++ [c]) = faces l + (if _is_face_like c then 1 else 0).
Proof.
  unfold faces. rewrite filter_app, length_app. simpl.
  destruct (_is_face_like c); simpl; lia.
Qed.

Section SelectionInvariant.
Variable available : list string.
Variables max_faces target_count : Z.

(** What holds of the variables of the selection at every point. *)
Definition sel_inv (st : selection) : Prop :=
  NoDup (selected st)
  /\ (forall c, In c (seen st) <-> In c (selected st))
  /\ face_count st = faces (selected st)
  /\ (forall c, In c (selected st) -> In c available).

(** [st'] continues [st]: codes are only appended, and the counter of
    faces never decreases. *)
Definition continues (st st' : selection) : Prop :=
  (forall c, In c (selected st) -> In c (selected st'))
  /\ face_count st <= face_count st'
  /\ len_selected st <= len_selected st'.

Lemma continues_refl st : continues st st.
Proof. unfold continues. repeat split; auto; lia. Qed.

Lemma continues_trans st1 st2 st3 :
  continues st1 st2 -> continues st2 st3 -> continues st1 st3.
Proof.
  intros (A1 & B1 & C1) (A2 & B2 & C2). unfold continues.
  repeat split; auto; lia.
Qed.

(** The two outcomes of [add]: nothing changes, or the normalised code,
    new and available, is appended. *)
Lemma add_cases code st :
  let c := py_strip (py_upper code) in
  add available max_faces code st = st
  \/ (c <> EmptyString /\ ~ In c (seen st) /\ In c available
      /\ selected (add available max_faces code st) = selected st ++ [c]
      /\ seen (add available max_faces code st) = c :: seen st
      /\ ((_is_face_like c = true /\ face_count st < max_faces
           /\ face_count (add available max_faces code st) = face_count st + 1)
          \/ (_is_face_like c = false
              /\ face_count (add available max_faces code st) = face_count st))).
Proof.
  intros c. unfold add. fold c.
  destruct (String.eqb_spec c EmptyString) as [E|N]; [now left|].
  destruct (mem c (seen st)) eqn:Hs; [now left|]. simpl.
  destruct (mem c available) eqn:Ha; [|now left]. simpl.
  assert (Hs' : ~ In c (seen st)).
  { intros H. apply mem_In in H. congruence. }
  apply mem_In in Ha.
  destruct (_is_face_like c) eqn:Hf.
  - destruct (Z.geb_spec (face_count st) max_faces) as [G|G]; [now left|].
    right. simpl. do 5 (split; [solve [auto]|]).
    left. repeat split; auto; lia.
  - right. simpl. do 5 (split; [solve [auto]|]).
    right. split; reflexivity.
Qed.

Lemma add_inv code st : sel_inv st -> sel_inv (add available max_faces code st).
Proof.
  intros (ND & Seen & FC & Av).
  destruct (add_cases code st) as [->|(N & Hs & Ha & Sel & See & Hf)];
    [repeat split; auto; apply Seen|].
  set (c := py_strip (py_upper code)) in *.
  unfold sel_inv. rewrite Sel, See. repeat split.
  - apply NoDup_app; [exact ND|repeat constructor; auto|].
    intros a Ha' [<-|[]]. apply Hs. now apply Seen.
  - intros [<-|H]; apply in_or_app; [right; now left|left; now apply Seen].
  - intros H. apply in_app_or in H. destruct H as [H|[<-|[]]];
      [right; now apply Seen|now left].
  - rewrite faces_app.
    destruct Hf as [(Hf & _ & ->)|(Hf & ->)]; rewrite Hf; lia.
  - intros d H. apply in_app_or in H. destruct H as [H|[<-|[]]]; auto.
Qed.

Lemma add_continues code st : continues st (add available max_faces code st).
Proof.
  destruct (add_cases code st) as [->|(N & Hs & Ha & Sel & See & Hf)];
    [apply continues_refl|].
  unfold continues, len_selected. rewrite Sel, length_app. simpl.
  repeat split.
  - intros c H. apply in_or_app. now left.
  - destruct Hf as [(_ & _ & ->)|(_ & ->)]; lia.
  - lia.
Qed.

Lemma add_len code st :
  len_selected (add available max_faces code st) <= len_selected st + 1.
Proof.
  destruct (add_cases code st) as [->|(N & Hs & Ha & Sel & See & Hf)]; [lia|].
  unfold len_selected. rewrite Sel, length_app. simpl. lia.
Qed.

Lemma add_cap code st :
  face_count st <= max_faces ->
  face_count (add available max_faces code st) <= max_faces.
Proof.
  intros H.
  destruct (add_cases code st)
    as [->|(N & Hs & Ha & Sel & See & [(_ & Hlt & ->)|(_ & ->)])]; lia.
Qed.

(** A normalised, available code offered to [add] ends up selected,
    unless it is a face and the cap is reached. *)
Lemma add_offered c st :
  sel_inv st ->
  py_strip (py_upper c) = c -> c <> EmptyString -> In c available ->
  In c (selected (add available max_faces c st))
  \/ (_is_face_like c = true
      /\ max_faces <= face_count (add available max_faces c st)).
Proof.
  intros (ND & Seen & FC & Av) Hn Hne Ha.
  unfold add. rewrite Hn.
  destruct (String.eqb_spec c EmptyString) as [E|_]; [contradiction|].
  destruct (mem c (seen st)) eqn:Hs; simpl.
  { left. apply Seen. now apply mem_In. }
  destruct (mem c available) eqn:Hm; simpl.
  2:{ apply mem_In in Ha. congruence. }
  destruct (_is_face_like c) eqn:Hf.
  - destruct (Z.geb_spec (face_count st) max_faces) as [G|G].
    + right. split; [reflexivity|lia].
    + left. simpl. apply in_or_app. right. now left.
  - left. simpl. apply in_or_app. right. now left.
Qed.

(** What a loop keeps: the invariant, the cap and the target. *)
Definition sel_ok (st : selection) : Prop :=
  sel_inv st /\ face_count st <= max_faces /\ len_selected st <= target_count.

Lemma seed_loop_ok seed st :
  sel_ok st -> len_selected st < target_count ->
  sel_ok (seed_loop available max_faces target_count seed st)
  /\ continues st (seed_loop available max_faces target_count seed st).
Proof.
  revert st. induction seed as [|c seed IH]; intros st (I & C & L) Hlt; simpl.
  - split; [exact (conj I (conj C L))|apply continues_refl].
  - pose proof (add_len c st) as Hl.
    assert (Hok : sel_ok (add available max_faces c st)).
    { split; [now apply add_inv|]. split; [now apply add_cap|lia]. }
    destruct (Z.geb_spec (len_selected (add available max_faces c st)) target_count)
      as [G|G].
    + split; [exact Hok|apply add_continues].
    + destruct (IH _ Hok G) as [Hok' Hc]. split; [exact Hok'|].
      eapply continues_trans; [apply add_continues|exact Hc].
Qed.

Lemma autofill_loop_ok cs st :
  sel_ok st ->
  sel_ok (autofill_loop available max_faces target_count cs st)
  /\ continues st (autofill_loop available max_faces target_count cs st).
Proof.
  revert st. induction cs as [|c cs IH]; intros st Hok; simpl.
  - split; [exact Hok|apply continues_refl].
  - destruct (Z.geb_spec (len_selected st) target_count) as [G|G].
    + split; [exact Hok|apply continues_refl].
    + destruct (_is_reasonable_autofill c); simpl; [|now apply IH].
      destruct Hok as (I & C & L).
      pose proof (add_len c st) as Hl.
      assert (Hok : sel_ok (add available max_faces c st)).
      { split; [now apply add_inv|]. split; [now apply add_cap|lia]. }
      destruct (IH _ Hok) as [Hok' Hc]. split; [exact Hok'|].
      eapply continues_trans; [apply add_continues|exact Hc].
Qed.

(** When the auto-fill ends short of the target, it has offered every
    reasonable candidate to [add]. *)
Lemma autofill_loop_short cs st c :
  sel_ok st ->
  len_selected (autofill_loop available max_faces target_count cs st) < target_count ->
  In c cs -> _is_reasonable_autofill c = true ->
  py_strip (py_upper c) = c -> c <> EmptyString -> In c available ->
  In c (selected (autofill_loop available max_faces target_count cs st))
  \/ (_is_face_like c = true
      /\ max_faces <= face_count (autofill_loop available max_faces target_count cs st)).
Proof.
  revert st. induction cs as [|d cs IH]; intros st Hok Hshort Hin Hr Hn Hne Ha;
    [contradiction|].
  simpl in *.
  destruct (Z.geb_spec (len_selected st) target_count) as [G|G]; [lia|].
  destruct Hin as [->|Hin].
  - rewrite Hr in *. simpl in *.
    destruct Hok as (I & C & L). pose proof (add_len c st) as Hl.
    assert (Hok : sel_ok (add available max_faces c st)).
    { split; [now apply add_inv|]. split; [now apply add_cap|lia]. }
    destruct (autofill_loop_ok cs _ Hok) as [_ (Sub & Fc & _)].
    destruct (add_offered c st I Hn Hne Ha) as [H|[Hf Hc]].
    + left. now apply Sub.
    + right. split; [exact Hf|lia].
  - destruct (_is_reasonable_autofill d); simpl in *; [|now apply IH].
    destruct Hok as (I & C & L). pose proof (add_len d st) as Hl.
    apply IH; auto.
    split; [now apply add_inv|]. split; [now apply add_cap|lia].
Qed.

End SelectionInvariant.

(** An identifier the auto-fill can take: available, already in the
    normal form [add] gives it (upper case, no surrounding blanks, not
    empty), with a first segment of at least 0x2300. *)
Definition valid_code (available : list string) (c : string) : Prop :=
  In c available /\ c <> EmptyString /\ py_strip (py_upper c) = c
  /\ _is_reasonable_autofill c = true.

(** The state [main] reaches after its three selection phases. *)
Definition selection_state (available : list string) (target_count max_faces : Z)
  : selection :=
  let st1 := seed_loop available max_faces target_count FACE_SEED
                       (mkSelection [] [] 0) in
  let st2 := if len_selected st1 <? target_count
             then seed_loop available max_faces target_count FUN_SEED st1
             else st1 in
  if len_selected st2 <? target_count
  then autofill_loop available max_faces target_count (sorted_by_key available) st2
  else st2.

Lemma main_selection_state available count max_faces_arg :
  main_selection available count max_faces_arg
  = firstn (Z.to_nat (Z.max 1 count))
           (selected (selection_state available (Z.max 1 count) (Z.max 0 max_faces_arg))).
Proof. reflexivity. Qed.

Lemma selection_state_ok available target_count max_faces :
  1 <= target_count -> 0 <= max_faces ->
  sel_ok available max_faces target_count
         (selection_state available target_count max_faces).
Proof.
  intros Ht Hc. unfold selection_state.
  set (st0 := mkSelection [] [] 0).
  assert (H0 : sel_ok available max_faces target_count st0).
  { unfold sel_ok, sel_inv, st0, len_selected, faces. simpl.
    repeat split; try lia; try tauto. constructor. }
  assert (L0 : len_selected st0 < target_count) by (unfold len_selected, st0; simpl; lia).
  destruct (seed_loop_ok available max_faces target_count FACE_SEED st0 H0 L0)
    as [H1 _].
  set (st1 := seed_loop available max_faces target_count FACE_SEED st0) in *.
  assert (H2 : sel_ok available max_faces target_count
                 (if len_selected st1 <? target_count
                  then seed_loop available max_faces target_count FUN_SEED st1
                  else st1)).
  { destruct (Z.ltb_spec (len_selected st1) target_count) as [L1|L1]; [|exact H1].
    now apply seed_loop_ok. }
  set (st2 := if len_selected st1 <? target_count
              then seed_loop available max_faces target_count FUN_SEED st1
              else st1) in *.
  destruct (Z.ltb_spec (len_selected st2) target_count) as [L2|L2]; [|exact H2].
  now apply autofill_loop_ok.
Qed.

(** If the selection ends short of the target, every valid identifier
    is selected, or is a face the cap kept out. *)
Lemma selection_state_short available target_count max_faces c :
  1 <= target_count -> 0 <= max_faces ->
  len_selected (selection_state available target_count max_faces) < target_count ->
  valid_code available c ->
  In c (selected (selection_state available target_count max_faces))
  \/ (_is_face_like c = true
      /\ max_faces <= face_count (selection_state available target_count max_faces)).
Proof.
  intros Ht Hc Hshort (Ha & Hne & Hn & Hr).
  unfold selection_state in *.
  set (st0 := mkSelection [] [] 0) in *.
  assert (H0 : sel_ok available max_faces target_count st0).
  { unfold sel_ok, sel_inv, st0, len_selected, faces. simpl.
    repeat split; try lia; try tauto. constructor. }
  assert (L0 : len_selected st0 < target_count) by (unfold len_selected, st0; simpl; lia).
  destruct (seed_loop_ok available max_faces target_count FACE_SEED st0 H0 L0)
    as [H1 _].
  set (st1 := seed_loop available max_faces target_count FACE_SEED st0) in *.
  assert (H2 : sel_ok available max_faces target_count
                 (if len_selected st1 <? target_count
                  then seed_loop available max_faces target_count FUN_SEED st1
                  else st1)).
  { destruct (Z.ltb_spec (len_selected st1) target_count) as [L1|L1]; [|exact H1].
    now apply seed_loop_ok. }
  set (st2 := if len_selected st1 <? target_count
              then seed_loop available max_faces target_count FUN_SEED st1
              else st1) in *.
  destruct (Z.ltb_spec (len_selected st2) target_count) as [L2|L2]; [|lia].
  apply autofill_loop_short; auto.
  now apply in_sorted_by_key.
Qed.

(** Whatever the pool, the selection has no duplicate, only available
    identifiers, at most the target count of them and at most the cap of
    faces. *)
Lemma main_selection_sound available count max_faces_arg :
  let r := main_selection available count max_faces_arg in
  NoDup r /\ incl r available
  /\ Z.of_nat (length r) <= Z.max 1 count
  /\ faces r <= Z.max 0 max_faces_arg.
Proof.
  intros r. unfold r. rewrite main_selection_state.
  destruct (selection_state_ok available (Z.max 1 count) (Z.max 0 max_faces_arg))
    as ((ND & _ & FC & Av) & Cap & Len); try lia.
  unfold len_selected in Len.
  rewrite firstn_all2 by lia.
  repeat split; auto. lia.
Qed.

(** C7, as amended. For a target count N >= 1 and a cap >= 0: when the
    pool holds distinct valid identifiers such that those that are not
    faces, plus as many faces as the cap admits, number at least N, the
    selection returns exactly N identifiers, without duplicates, at most
    the cap of them face-like. *)
Theorem selection_exact_unique_capped
        (available pool : list string) (N cap : Z) :
  1 <= N -> 0 <= cap ->
  NoDup pool -> Forall (valid_code available) pool ->
  N <= non_faces pool + Z.min cap (faces pool) ->
  let r := main_selection available N cap in
  Z.of_nat (length r) = N /\ NoDup r /\ faces r <= cap.
Proof.
  intros HN Hcap NDp Valid Enough r. unfold r.
  rewrite main_selection_state.
  rewrite (Z.max_r 1 N), (Z.max_r 0 cap) by lia.
  pose proof (selection_state_ok available N cap HN Hcap)
    as ((ND & _ & FC & Av) & Cap & Len).
  pose proof (fun c => selection_state_short available N cap c HN Hcap) as Short.
  set (st := selection_state available N cap) in *. clearbody st.
  unfold len_selected in *.
  assert (Full : N <= Z.of_nat (length (selected st))).
  { destruct (Z_lt_le_dec (Z.of_nat (length (selected st))) N) as [Lt|]; [|assumption].
    exfalso. rewrite Forall_forall in Valid.
    assert (NF : non_faces pool <= non_faces (selected st)).
    { unfold non_faces. apply inj_le. apply NoDup_incl_length.
      - now apply NoDup_filter.
      - intros c Hc. apply filter_In in Hc. destruct Hc as [Hc Hf].
        apply filter_In. split; [|exact Hf].
        destruct (Short c Lt (Valid c Hc)) as [H|[Hface _]]; [exact H|].
        rewrite Hface in Hf. discriminate. }
    pose proof (faces_non_faces (selected st)) as Sum.
    destruct (Z_le_gt_dec cap (face_count st)) as [Reached|Below].
    - lia.
    - assert (All : Z.of_nat (length pool) <= Z.of_nat (length (selected st))).
      { apply inj_le. apply NoDup_incl_length; [exact NDp|].
        intros c Hc. destruct (Short c Lt (Valid c Hc)) as [H|[_ Hge]];
          [exact H|lia]. }
      pose proof (faces_non_faces pool). lia. }
  rewrite firstn_all2 by lia.
  repeat split; [lia|exact ND|lia].
Qed.

Section SelectionExamples.
Local Open Scope string_scope.

(** Three hearts and two faces, under a cap of one face. *)
Definition hearts_and_faces : list string :=
  ["1F499"; "1F49A"; "1F49B"; "1F600"; "1F601"].

Lemma selection_exact_unique_capped_witness :
  let r := main_selection hearts_and_faces 4 1 in
  Z.of_nat (length r) = 4 /\ NoDup r /\ faces r <= 1.
Proof.
  apply (selection_exact_unique_capped hearts_and_faces hearts_and_faces 4 1).
  - lia.
  - lia.
  - repeat constructor; simpl; intuition discriminate.
  - repeat constructor; simpl; intuition discriminate.
  - vm_compute. discriminate.
Defined.

Example hearts_and_faces_selected :
  main_selection hearts_and_faces 4 1 = ["1F49B"; "1F49A"; "1F499"; "1F600"].
Proof. vm_compute. reflexivity. Qed.

(** The claim as the specification words it: at least N valid
    identifiers in the pool are enough for exactly N to be selected. *)
Definition selection_claim_as_stated : Prop :=
  forall (available pool : list string) (N cap : Z),
    1 <= N -> 0 <= cap ->
    NoDup pool -> Forall (valid_code available) pool ->
    N <= Z.of_nat (length pool) ->
    let r := main_selection available N cap in
    Z.of_nat (length r) = N /\ NoDup r /\ faces r <= cap.

(** C7, counterexample: with two faces available and a cap of one face,
    asking for two identifiers returns one. *)
Lemma selection_claim_fails_under_cap : ~ selection_claim_as_stated.
Proof.
  intros H.
  assert (K : Z.of_nat (length (main_selection ["1F600"; "1F601"] 2 1)) = 2).
  { apply (H ["1F600"; "1F601"] ["1F600"; "1F601"] 2 1); try lia.
    - repeat constructor; simpl; intuition discriminate.
    - repeat constructor; simpl; intuition discriminate.
    - simpl. lia. }
  vm_compute in K. discriminate.
Qed.

Example two_faces_cap_one :
  main_selection ["1F600"; "1F601"] 2 1 = ["1F600"].
Proof. vm_compute. reflexivity. Qed.

End SelectionExamples.

(** ** The stand-alone selection function

    [_select_emoji_codes] is not called by [main]; it selects the same
    way, with neither the face cap nor the auto-fill filter. *)

Section PlainSelection.
Variable available : list string.
Variable target_count : Z.

Definition plain_inv (st : list string * list string) : Prop :=
  NoDup (fst st)
  /\ (forall c, In c (snd st) <-> In c (fst st))
  /\ (forall c, In c (fst st) -> In c available).

Lemma add_plain_cases code st :
  let c := py_strip (py_upper code) in
  add_plain available code st = st
  \/ (~ In c (snd st) /\ In c available
      /\ add_plain available code st = (fst st ++ [c], c :: snd st)).
Proof.
  intros c. destruct st as [sel sn]. unfold add_plain. fold c. simpl.
  destruct (String.eqb c EmptyString); [now left|].
  destruct (mem c sn) eqn:Hs; [now left|]. simpl.
  destruct (mem c available) eqn:Ha; [|now left]. simpl.
  right. split; [|split; [now apply mem_In|reflexivity]].
  intros H. apply mem_In in H. congruence.
Qed.

Lemma add_plain_inv code st : plain_inv st -> plain_inv (add_plain available code st).
Proof.
  intros (ND & Seen & Av).
  destruct (add_plain_cases code st) as [->|(Hs & Ha & ->)];
    [exact (conj ND (conj Seen Av))|].
  set (c := py_strip (py_upper code)) in *.
  unfold plain_inv. simpl. repeat split.
  - apply NoDup_app; [exact ND|repeat constructor; auto|].
    intros a Ha' [<-|[]]. apply Hs. now apply Seen.
  - intros [<-|H]; apply in_or_app; [right; now left|left; now apply Seen].
  - intros H. apply in_app_or in H. destruct H as [H|[<-|[]]];
      [right; now apply Seen|now left].
  - intros d H. apply in_app_or in H. destruct H as [H|[<-|[]]]; auto.
Qed.

Lemma add_plain_grows code st :
  (forall c, In c (fst st) -> In c (fst (add_plain available code st)))
  /\ (length (fst st) <= length (fst (add_plain available code st)) <= S (length (fst st)))%nat.
Proof.
  destruct (add_plain_cases code st) as [->|(_ & _ & ->)]; simpl.
  - split; [auto|lia].
  - split; [intros c H; apply in_or_app; now left|].
    rewrite length_app. simpl. lia.
Qed.

Lemma add_plain_offered c st :
  plain_inv st ->
  py_strip (py_upper c) = c -> c <> EmptyString -> In c available ->
  In c (fst (add_plain available c st)).
Proof.
  intros (ND & Seen & Av) Hn Hne Ha. destruct st as [sel sn].
  unfold add_plain. rewrite Hn. simpl in *.
  destruct (String.eqb_spec c EmptyString) as [E|_]; [contradiction|].
  destruct (mem c sn) eqn:Hs; simpl.
  { apply Seen. now apply mem_In. }
  destruct (mem c available) eqn:Hm; simpl.
  - apply in_or_app. right. now left.
  - apply mem_In in Ha. congruence.
Qed.

(** The second loop: it keeps the invariant, never passes the target,
    and when it ends short of it every normalised available candidate
    has been selected. *)
Lemma fill_loop_spec cs st :
  plain_inv st -> Z.of_nat (length (fst st)) < target_count ->
  let st' := fill_loop available target_count cs st in
  plain_inv st'
  /\ Z.of_nat (length (fst st')) <= target_count
  /\ (forall c, In c (fst st) -> In c (fst st'))
  /\ (Z.of_nat (length (fst st')) < target_count ->
      forall c, In c cs -> py_strip (py_upper c) = c -> c <> EmptyString ->
                In c available -> In c (fst st')).
Proof.
  revert st. induction cs as [|d cs IH]; intros st Hinv Hlt; simpl.
  - repeat split; try apply Hinv; auto; try lia; try (intros _ c []).
  - pose proof (add_plain_inv d st Hinv) as Hinv'.
    destruct (add_plain_grows d st) as [Sub Len].
    destruct (Z.geb_spec (Z.of_nat (length (fst (add_plain available d st))))
                         target_count) as [G|G].
    + repeat split; try apply Hinv'; auto; lia.
    + destruct (IH _ Hinv' G) as (I & L & S' & Short).
      split; [exact I|]. split; [exact L|]. split; [auto|].
      intros Hs c [<-|Hc] Hn Hne Ha.
      * apply S'. now apply add_plain_offered.
      * now apply Short.
Qed.

(** The first loop either returns exactly [target_count] distinct
    available codes, or falls through short of the target. *)
Lemma seed_pass_spec seed st :
  1 <= target_count ->
  plain_inv st -> Z.of_nat (length (fst st)) < target_count ->
  match seed_pass available target_count seed st with
  | inl r => Z.of_nat (length r) = target_count /\ NoDup r /\ incl r available
  | inr st' => plain_inv st' /\ Z.of_nat (length (fst st')) < target_count
  end.
Proof.
  intros Ht. revert st. induction seed as [|d seed IH]; intros st Hinv Hlt; simpl.
  - now split.
  - pose proof (add_plain_inv d st Hinv) as (ND & Seen & Av).
    destruct (add_plain_grows d st) as [_ Len].
    destruct (Z.geb_spec (Z.of_nat (length (fst (add_plain available d st))))
                         target_count) as [G|G].
    + unfold slice_to. destruct (Z.leb_spec 0 target_count); [|lia].
      rewrite firstn_all2 by lia. repeat split; auto. lia.
    + apply IH; [now apply add_plain_inv|exact G].
Qed.

End PlainSelection.

(** For a target N >= 1 and a pool of at least N distinct available
    identifiers in normal form, [_select_emoji_codes] returns exactly N
    identifiers without duplicates, whatever the seed. *)
Lemma select_emoji_codes_exact (available pool seed : list string) (N : Z) :
  1 <= N ->
  NoDup pool ->
  Forall (fun c => In c available /\ c <> EmptyString /\ py_strip (py_upper c) = c) pool ->
  N <= Z.of_nat (length pool) ->
  let r := _select_emoji_codes available N seed in
  Z.of_nat (length r) = N /\ NoDup r /\ incl r available.
Proof.
  intros HN NDp Valid Enough r. unfold r, _select_emoji_codes.
  assert (I0 : plain_inv available ([], [])).
  { unfold plain_inv. simpl. repeat split; try tauto. constructor. }
  pose proof (seed_pass_spec available N seed ([], []) HN I0 ltac:(simpl; lia)) as Hs.
  destruct (seed_pass available N seed ([], [])) as [res|st]; [exact Hs|].
  destruct Hs as [Inv Lt].
  destruct (fill_loop_spec available N (sorted_by_key available) st Inv Lt)
    as ((ND & _ & Av) & Le & _ & Short).
  set (st' := fill_loop available N (sorted_by_key available) st) in *. clearbody st'.
  split; [|split; [exact ND|exact Av]].
  destruct (Z_lt_le_dec (Z.of_nat (length (fst st'))) N) as [Lt'|]; [|lia].
  exfalso. rewrite Forall_forall in Valid.
  assert (Z.of_nat (length pool) <= Z.of_nat (length (fst st'))); [|lia].
  apply inj_le. apply NoDup_incl_length; [exact NDp|].
  intros c Hc. destruct (Valid c Hc) as (Ha & Hne & Hn).
  apply Short; auto. now apply in_sorted_by_key.
Qed.

Section PlainSelectionExamples.
Local Open Scope string_scope.

(** It knows no face cap: twelve faces out of twelve. *)
Example select_emoji_codes_all_faces :
  _select_emoji_codes FACE_SEED 12 FACE_SEED = FACE_SEED
  /\ faces (_select_emoji_codes FACE_SEED 12 FACE_SEED) = 12.
Proof. split; vm_compute; reflexivity. Qed.

End PlainSelectionExamples.

(* ------------------------------------------------------------------ *)
(** * Properties of the driver                                         *)
(* ------------------------------------------------------------------ *)

Lemma convert_all_none (convert : string -> conversion) (codes : list string) :
  (forall c, In c codes -> convert c = Missing \/ convert c = Raised) ->
  convert_all convert codes = [].
Proof.
  unfold convert_all. generalize (@nil (string * list Z)).
  induction codes as [|c codes IH]; intros acc H; simpl.
  - reflexivity.
  - destruct (H c (or_introl eq_refl)) as [-> | ->];
      apply IH; intros d Hd; apply H; now right.
Qed.

(** The exit status of [main] is decided before any conversion: it is
    non-zero exactly when the directory is missing or nothing was
    selected. *)
Lemma main_exit_status svg_dir_exists available count max_faces convert :
  exit_status (main svg_dir_exists available count max_faces convert) <> 0
  <-> svg_dir_exists = false \/ main_selection available count max_faces = [].
Proof.
  unfold main. destruct svg_dir_exists; simpl.
  - destruct (main_selection available count max_faces); simpl.
    + split; [now right|discriminate].
    + split; [congruence|]. intros [H|H]; discriminate.
  - split; [now left|discriminate].
Qed.

(** C5, the behaviour of the code where it departs from the claim: when
    the directory exists, at least one identifier is selected and every
    conversion fails, [main] produces no asset, still writes a header, and
    exits with status 0. *)
Theorem main_exit_zero_when_all_conversions_fail
        (available : list string) (count max_faces : Z)
        (convert : string -> conversion) :
  main_selection available count max_faces <> [] ->
  (forall c, In c (main_selection available count max_faces) ->
             convert c = Missing \/ convert c = Raised) ->
  produced available count max_faces convert = 0%nat
  /\ exit_status (main true available count max_faces convert) = 0
  /\ header (main true available count max_faces convert) = Some (write_header []).
Proof.
  intros Hsel Hfail. unfold produced, main. simpl.
  rewrite (convert_all_none convert _ Hfail).
  destruct (main_selection available count max_faces) as [|c l];
    [contradiction|].
  repeat split.
Qed.

Section DriverExamples.
Local Open Scope string_scope.

Lemma main_exit_zero_when_all_conversions_fail_witness :
  produced ["1F602"] 1 10 (fun _ => Raised) = 0%nat
  /\ exit_status (main true ["1F602"] 1 10 (fun _ => Raised)) = 0
  /\ header (main true ["1F602"] 1 10 (fun _ => Raised)) = Some (write_header []).
Proof.
  apply (main_exit_zero_when_all_conversions_fail ["1F602"] 1 10 (fun _ => Raised)).
  - vm_compute. discriminate.
  - intros c _. now right.
Defined.

End DriverExamples.

(* ------------------------------------------------------------------ *)
(** * Properties of the array emitter                                  *)
(* ------------------------------------------------------------------ *)

(** ** Rows of sixteen values *)

(** [rows] lays the values of [arr] out in order, sixteen per row; only
    the last row may be shorter, and no row is empty. *)
Definition rows_of {A : Type} (arr : list A) (rows : list (list A)) : Prop :=
  concat rows = arr
  /\ Forall (fun r => (1 <= length r <= 16)%nat) rows
  /\ Forall (fun r => length r = 16%nat) (removelast rows).

(** The chunks the loop of [generate_cpp_array] slices. *)
Definition chunks {A : Type} (arr : list A) : list (list A) :=
  map (slice16 arr) (range16 (length arr)).

Lemma map_slices_step {A : Type} (l : list A) (m : nat) :
  map (slice16 l) (map (fun k => 16 * k)%nat (seq 0 (S m)))
  = firstn 16 l
    :: map (slice16 (skipn 16 l)) (map (fun k => 16 * k)%nat (seq 0 m)).
Proof.
  rewrite <- cons_seq, <- seq_shift. simpl map at 1. rewrite !map_map.
  f_equal. apply map_ext. intros k. unfold slice16.
  rewrite skipn_skipn. f_equal. f_equal. lia.
Qed.

Lemma rows_of_slices {A : Type} (m : nat) :
  forall l : list A,
    ((length l + 15) / 16 = m)%nat ->
    rows_of l (map (slice16 l) (map (fun k => 16 * k)%nat (seq 0 m))).
Proof.
  induction m as [|m IH]; intros l Hm.
  - assert (length l = 0%nat) by (apply Nat.div_small_iff in Hm; lia).
    destruct l; [|discriminate]. repeat split; constructor.
  - rewrite map_slices_step.
    assert (Hpos : (1 <= length l)%nat).
    { destruct l; [discriminate|simpl; lia]. }
    assert (Hrest : ((length (skipn 16 l) + 15) / 16 = m)%nat).
    { rewrite length_skipn.
      destruct (Nat.le_gt_cases 16 (length l)) as [Hge|Hlt].
      - replace (length l + 15)%nat with (length l - 16 + 15 + 1 * 16)%nat in Hm by lia.
        rewrite Nat.div_add in Hm by lia. lia.
      - replace (length l - 16 + 15)%nat with 15%nat by lia.
        assert (length l + 15 < 2 * 16)%nat by lia.
        assert ((length l + 15) / 16 < 2)%nat
          by (apply Nat.Div0.div_lt_upper_bound; lia).
        simpl. lia. }
    destruct (IH _ Hrest) as (Hcat & Hlen & Hfull).
    split; [|split].
    + rewrite concat_cons, Hcat. apply firstn_skipn.
    + constructor; [|exact Hlen]. rewrite length_firstn. lia.
    + destruct m as [|m]; [constructor|].
      rewrite map_slices_step in *.
      change (removelast (?a :: ?b :: ?c)) with (a :: removelast (b :: c)).
      constructor; [|exact Hfull].
      rewrite length_firstn.
      assert (16 < length l)%nat; [|lia].
      destruct (Nat.le_gt_cases (length l) 16) as [Hle|]; [|assumption].
      exfalso. rewrite length_skipn in Hrest.
      replace (length l - 16 + 15)%nat with 15%nat in Hrest by lia.
      simpl in Hrest. discriminate.
Qed.

(** The loop slices the array into rows of sixteen. *)
Lemma chunks_rows_of {A : Type} (arr : list A) : rows_of arr (chunks arr).
Proof.
  unfold chunks, range16. now apply rows_of_slices.
Qed.

(** When the length is a multiple of sixteen, as for the 4096 values of
    a 64 x 64 image, every row is full. *)
Lemma rows_of_full {A : Type} (arr : list A) (rows : list (list A)) :
  rows_of arr rows -> (length arr mod 16 = 0)%nat ->
  Forall (fun r => length r = 16%nat) rows.
Proof.
  intros (Hcat & Hlen & Hfull) Hmod. subst arr.
  destruct rows as [|r rows] using rev_ind; [constructor|]. clear IHrows.
  rename rows into front, r into lastrow.
  rewrite removelast_last in Hfull.
  apply Forall_app. split; [exact Hfull|]. constructor; [|constructor].
  apply Forall_app in Hlen. destruct Hlen as [_ Hlast].
  inversion Hlast as [|? ? Hl _]; subst.
  assert (Hsum : length (concat front) = (16 * length front)%nat).
  { clear - Hfull. induction Hfull as [|r front Hr _ IH]; simpl; [reflexivity|].
    rewrite length_app, IH, Hr. lia. }
  rewrite concat_app, length_app, Hsum in Hmod.
  change (concat [lastrow]) with (lastrow ++ []) in Hmod.
  rewrite app_nil_r in Hmod.
  destruct (Nat.eq_dec (length lastrow) 16) as [E|N]; [exact E|].
  exfalso.
  rewrite Nat.add_comm, (Nat.mul_comm 16), Nat.Div0.mod_add in Hmod.
  rewrite Nat.mod_small in Hmod by lia. lia.
Qed.

(** ** Text *)

Section EmitterText.
Local Open Scope string_scope.

Lemma append_assoc (a b c : string) : (a ++ b) ++ c = a ++ (b ++ c).
Proof. induction a as [|x a IH]; simpl; [reflexivity|now rewrite IH]. Qed.

Lemma append_nil_r (a : string) : a ++ "" = a.
Proof. induction a as [|x a IH]; simpl; [reflexivity|now rewrite IH]. Qed.

(** Concatenation of pieces of text, in order. *)
Definition cat (l : list string) : string := fold_right append "" l.

Lemma cat_app (l1 l2 : list string) : cat (l1 ++ l2)%list = cat l1 ++ cat l2.
Proof.
  induction l1 as [|a l1 IH]; simpl; [reflexivity|].
  now rewrite IH, append_assoc.
Qed.

(** Joining lines with line feeds ends every line but the last. *)
Lemma join_lines (h : string) (ls : list string) (t : string) :
  join nl (h :: ls ++ [t])%list = h ++ nl ++ cat (map (fun l => l ++ nl) ls) ++ t.
Proof.
  revert h. induction ls as [|a ls IH]; intros h.
  - reflexivity.
  - change (join nl (h :: (a :: ls) ++ [t])%list)
      with (h ++ nl ++ join nl (a :: ls ++ [t])%list).
    rewrite IH. simpl map. simpl cat. now rewrite !append_assoc.
Qed.

(** A loop of [write] calls appends the pieces in order. *)
Lemma fold_left_write {A : Type} (g : A -> string) (l : list A) (f : string) :
  fold_left (fun f a => write (g a) f) l f = f ++ cat (map g l).
Proof.
  revert f. induction l as [|a l IH]; intros f; simpl.
  - now rewrite append_nil_r.
  - rewrite IH. unfold write. now rewrite append_assoc.
Qed.

(** ** Literals *)

(** A 16-bit value, as the quantizer produces. *)
Definition u16 (v : Z) : Prop := (0 <= v < 65536)%Z.

Definition is_upper_hex (c : ascii) : bool :=
  let n := nat_of_ascii c in
  ((48 <=? n) && (n <=? 57) || (65 <=? n) && (n <=? 70))%nat.

(** [s] is the literal of [v] with a [0x] prefix and exactly four
    upper-case hexadecimal digits: it has that shape and reads back,
    as a hexadecimal literal, to [v]. *)
Definition is_hex4_literal (v : Z) (s : string) : Prop :=
  exists d3 d2 d1 d0 : ascii,
    s = String "0" (String "x" (String d3 (String d2 (String d1 (String d0 "")))))
    /\ is_upper_hex d3 = true /\ is_upper_hex d2 = true
    /\ is_upper_hex d1 = true /\ is_upper_hex d0 = true
    /\ py_int16 s = Some v.

Definition hex4_check (v : Z) : bool :=
  match "0x" ++ format_04X v with
  | String "0" (String "x" (String d3 (String d2 (String d1 (String d0 ""))))) as s =>
      is_upper_hex d3 && is_upper_hex d2 && is_upper_hex d1 && is_upper_hex d0
      && match py_int16 s with
         | Some w => (w =? v)%Z
         | None => false
         end
  | _ => false
  end.

(** Every 16-bit value is four nibbles; the check runs over all of them. *)
Definition nibbles : list Z := map Z.of_nat (seq 0 16).

Definition of_nibbles (a b c d : Z) : Z := (4096 * a + 256 * b + 16 * c + d)%Z.

Lemma forallb_nibbles (p : Z -> Z -> Z -> Z -> bool) (l : list Z) :
  forallb (fun a => forallb (fun b => forallb (fun c => forallb (p a b c) l) l) l) l
  = true ->
  forall a b c d, In a l -> In b l -> In c l -> In d l -> p a b c d = true.
Proof.
  intros H a b c d Ha Hb Hc Hd.
  rewrite forallb_forall in H. specialize (H a Ha).
  rewrite forallb_forall in H. specialize (H b Hb).
  rewrite forallb_forall in H. specialize (H c Hc).
  rewrite forallb_forall in H. exact (H d Hd).
Qed.

Lemma hex4_check_all :
  forallb (fun a => forallb (fun b => forallb (fun c =>
    forallb (fun d => hex4_check (of_nibbles a b c d)) nibbles) nibbles) nibbles) nibbles
  = true.
Proof. vm_compute. reflexivity. Qed.

Lemma in_nibbles (d : Z) : (0 <= d < 16)%Z -> In d nibbles.
Proof.
  intros H. unfold nibbles. apply in_map_iff. exists (Z.to_nat d).
  split; [lia|apply in_seq; lia].
Qed.

Lemma hex4_check_u16 (v : Z) : u16 v -> hex4_check v = true.
Proof.
  intros Hv. unfold u16 in Hv.
  assert (N3 : In (v / 4096)%Z nibbles)
    by (apply in_nibbles; Z.div_mod_to_equations; lia).
  assert (N2 : In (v / 256 mod 16)%Z nibbles)
    by (apply in_nibbles; Z.div_mod_to_equations; lia).
  assert (N1 : In (v / 16 mod 16)%Z nibbles)
    by (apply in_nibbles; Z.div_mod_to_equations; lia).
  assert (N0 : In (v mod 16)%Z nibbles)
    by (apply in_nibbles; Z.div_mod_to_equations; lia).
  assert (E : v = of_nibbles (v / 4096) (v / 256 mod 16) (v / 16 mod 16) (v mod 16))
    by (unfold of_nibbles; Z.div_mod_to_equations; lia).
  rewrite E at 1.
  exact (forallb_nibbles (fun a b c d => hex4_check (of_nibbles a b c d)) nibbles
                         hex4_check_all _ _ _ _ N3 N2 N1 N0).
Qed.

Lemma format_04X_literal (v : Z) :
  u16 v -> is_hex4_literal v ("0x" ++ format_04X v).
Proof.
  intros Hv. pose proof (hex4_check_u16 v Hv) as H.
  unfold hex4_check in H. unfold is_hex4_literal.
  destruct ("0x" ++ format_04X v) as [|c0 s]; [discriminate|].
  destruct (Ascii.eqb_spec c0 "0") as [->|N];
    [|destruct c0 as [[] [] [] [] [] [] [] []]; try discriminate; now contradiction N].
  destruct s as [|c1 s]; [discriminate|].
  destruct (Ascii.eqb_spec c1 "x") as [->|N];
    [|destruct c1 as [[] [] [] [] [] [] [] []]; try discriminate; now contradiction N].
  destruct s as [|d3 [|d2 [|d1 [|d0 [|? ?]]]]]; try discriminate.
  apply andb_prop in H. destruct H as [H Hv'].
  apply andb_prop in H. destruct H as [H H0].
  apply andb_prop in H. destruct H as [H H1].
  apply andb_prop in H. destruct H as [H3 H2].
  exists d3, d2, d1, d0. repeat split; auto.
  destruct (py_int16 _) as [w|]; [|discriminate].
  apply Z.eqb_eq in Hv'. now subst.
Qed.

End EmitterText.

(** ** The layout of the generated header *)

Section HeaderLayout.
Local Open Scope string_scope.

(** The text of one row, as the loop of [generate_cpp_array] builds it. *)
Definition row_text (chunk : list Z) : string :=
  "    " ++ join ", " (map (fun val => "0x" ++ format_04X val) chunk) ++ ",".

Lemma generate_cpp_array_rows (name : string) (arr : list Z) :
  generate_cpp_array name arr
  = "const uint16_t " ++ name ++ "[" ++ py_str (length arr) ++ "] = {" ++ nl
    ++ cat (map (fun r => row_text r ++ nl) (chunks arr)) ++ "};".
Proof.
  unfold generate_cpp_array.
  rewrite (fold_left_append_map (fun i => row_text (slice16 arr i))
                                (range16 (length arr))).
  change (([?h] ++ ?l) ++ ?t)%list with (h :: (l ++ t)%list).
  rewrite join_lines. unfold chunks. rewrite !map_map.
  now rewrite !append_assoc.
Qed.

(** [line] is a row of the declaration holding the values [r]: four
    blanks, the literals of the values separated by a comma and a blank,
    a closing comma, a line feed. *)
Definition is_row_line (r : list Z) (line : string) : Prop :=
  exists lits : list string,
    Forall2 is_hex4_literal r lits
    /\ line = "    " ++ join ", " lits ++ "," ++ nl.

(** [d] declares the array [name] with the values [arr]: the values in
    order, sixteen per row. *)
Definition is_array_declaration (name : string) (arr : list Z) (d : string) : Prop :=
  exists (rows : list (list Z)) (lines : list string),
    rows_of arr rows
    /\ Forall2 is_row_line rows lines
    /\ d = "const uint16_t " ++ name ++ "[" ++ py_str (length arr) ++ "] = {" ++ nl
           ++ cat lines ++ "};".

(** The aggregate list of references and the count that close the file. *)
Definition aggregate_list (names : list string) : string :=
  "const uint16_t* emoji_arrays[" ++ py_str (length names) ++ "] = {" ++ nl
  ++ cat (map (fun n => "    " ++ n ++ "," ++ nl) names)
  ++ "};" ++ nl ++ nl.

Definition count_constant (n : nat) : string :=
  "const int NUM_EMOJIS = " ++ py_str n ++ ";" ++ nl.

Definition preamble : string :=
  "#pragma once" ++ nl
  ++ "#include <Arduino.h>" ++ nl ++ nl
  ++ "// OpenMoji emoji data converted from SVG to 64x64 RGB565" ++ nl
  ++ "// Source: https://openmoji.org (CC BY-SA 4.0)" ++ nl ++ nl.

Lemma row_text_is_row_line (r : list Z) :
  Forall u16 r -> is_row_line r (row_text r ++ nl).
Proof.
  intros Hr. exists (map (fun val => "0x" ++ format_04X val) r). split.
  - induction Hr as [|v r Hv _ IH]; simpl; constructor; [|exact IH].
    now apply format_04X_literal.
  - unfold row_text. now rewrite !append_assoc.
Qed.

Lemma rows_of_u16 (arr : list Z) (rows : list (list Z)) :
  rows_of arr rows -> Forall u16 arr -> Forall (Forall u16) rows.
Proof.
  intros (Hcat & _) Harr. subst arr.
  induction rows as [|r rows IH]; [constructor|].
  simpl in Harr. apply Forall_app in Harr. destruct Harr as [Hr Hrest].
  constructor; [exact Hr|now apply IH].
Qed.

Lemma generate_cpp_array_is_declaration (name : string) (arr : list Z) :
  Forall u16 arr -> is_array_declaration name arr (generate_cpp_array name arr).
Proof.
  intros Harr. exists (chunks arr), (map (fun r => row_text r ++ nl) (chunks arr)).
  split; [apply chunks_rows_of|]. split; [|apply generate_cpp_array_rows].
  pose proof (rows_of_u16 arr _ (chunks_rows_of arr) Harr) as Hrows.
  induction Hrows as [|r rows Hr _ IH]; simpl; constructor; [|exact IH].
  now apply row_text_is_row_line.
Qed.

(** The header as one text: what the sequence of [write] calls adds up
    to. *)
Lemma write_header_text (arrays : list (string * list Z)) :
  write_header arrays
  = preamble
    ++ cat (map (fun p => generate_cpp_array (fst p) (snd p) ++ nl ++ nl) arrays)
    ++ aggregate_list (map fst arrays)
    ++ count_constant (length arrays).
Proof.
  unfold write_header.
  rewrite (fold_left_write (fun p : string * list Z => "    " ++ fst p ++ "," ++ nl)).
  assert (E : forall f0,
             fold_left (fun f (p : string * list Z) =>
                          write (nl ++ nl) (write (generate_cpp_array (fst p) (snd p)) f))
                       arrays f0
             = f0 ++ cat (map (fun p => generate_cpp_array (fst p) (snd p) ++ nl ++ nl)
                              arrays)).
  { induction arrays as [|p arrays IH]; intros f0; simpl.
    - now rewrite append_nil_r.
    - rewrite IH. unfold write. now rewrite !append_assoc. }
  rewrite E. unfold write, aggregate_list, count_constant, preamble.
  rewrite length_map, map_map. simpl fst.
  now rewrite !append_assoc.
Qed.

(** C8. For every sequence of (name, pixel array) pairs whose values are
    16-bit, the emitted text is: the preamble; then, for each pair in
    order, a declaration of its array, values in order sixteen per row
    (the last row holding what is left), each a [0x] literal of four
    upper-case hexadecimal digits; then one aggregate list naming every
    declared array in the same order; then a count constant equal to the
    number of arrays. *)
Theorem write_header_layout (arrays : list (string * list Z)) :
  (forall p, In p arrays -> Forall u16 (snd p)) ->
  exists decls : list string,
    Forall2 (fun p d => is_array_declaration (fst p) (snd p) d) arrays decls
    /\ write_header arrays
       = preamble
         ++ cat (map (fun d => d ++ nl ++ nl) decls)
         ++ aggregate_list (map fst arrays)
         ++ count_constant (length arrays).
Proof.
  intros H16.
  exists (map (fun p => generate_cpp_array (fst p) (snd p)) arrays). split.
  - induction arrays as [|p arrays IH]; simpl; constructor.
    + apply generate_cpp_array_is_declaration. apply H16. now left.
    + apply IH. intros q Hq. apply H16. now right.
  - rewrite write_header_text, map_map. reflexivity.
Qed.

Lemma write_header_layout_witness :
  exists decls : list string,
    Forall2 (fun p d => is_array_declaration (fst p) (snd p) d)
            [("emoji_1f602", [0xF800; 0x0000; 0x2945])] decls
    /\ write_header [("emoji_1f602", [0xF800; 0x0000; 0x2945])]
       = preamble
         ++ cat (map (fun d => d ++ nl ++ nl) decls)
         ++ aggregate_list (map fst [("emoji_1f602", [0xF800; 0x0000; 0x2945])])
         ++ count_constant (length [("emoji_1f602", [0xF800; 0x0000; 0x2945])]).
Proof.
  apply (write_header_layout [("emoji_1f602", [0xF800; 0x0000; 0x2945])]).
  intros p [<-|[]]. simpl. repeat constructor; unfold u16; lia.
Defined.

(** The arrays [main] emits are outputs of the quantizer, whose values
    are 16-bit; a 64 x 64 image gives 4096 of them, 256 full rows. *)
Lemma pil_to_rgb565_array_u16 (img : image) :
  wf_image img -> Forall u16 (pil_to_rgb565_array_default img).
Proof.
  intros Hwf. unfold pil_to_rgb565_array_default.
  rewrite pil_to_rgb565_array_grid. apply Forall_forall. intros v Hv.
  apply in_flat_map in Hv. destruct Hv as (y & Hy & Hv).
  apply in_map_iff in Hv. destruct Hv as (x & <- & Hx).
  apply in_seq in Hx, Hy.
  pose proof (getpixel_rgb888 img x y Hwf ltac:(lia) ltac:(lia)) as Hp.
  destruct (getpixel img x y) as [[r g] b] eqn:E.
  destruct (rgb_eqb_spec (r, g, b) background_key) as [->|N].
  - rewrite quantize_pixel_background. unfold u16. lia.
  - destruct Hp as (Hr & Hg & Hb).
    destruct (Z_le_gt_dec r 10) as [Lr|Lr];
      [destruct (Z_le_gt_dec g 10) as [Lg|Lg];
       [destruct (Z_le_gt_dec b 10) as [Lb|Lb]|]|].
    + rewrite (quantize_pixel_dark _ _ _ r g b N Lr Lg Lb). vm_compute. split; congruence.
    + rewrite quantize_pixel_bright
        by (try assumption; unfold outline_boost_threshold; lia).
      now apply rgb888_to_rgb565_u16.
    + rewrite quantize_pixel_bright
        by (try assumption; unfold outline_boost_threshold; lia).
      now apply rgb888_to_rgb565_u16.
    + rewrite quantize_pixel_bright
        by (try assumption; unfold outline_boost_threshold; lia).
      now apply rgb888_to_rgb565_u16.
Qed.

End HeaderLayout.

(* ================================================================== *)
(** * Part III: further properties of the scripts                      *)
(* ================================================================== *)

(* ------------------------------------------------------------------ *)
(** * The encoder and the two quantizers                               *)
(* ------------------------------------------------------------------ *)

Definition field_shift_ok (c : Z) : bool :=
  (Z.shiftr (Z.land c 0xF8) 3 =? Z.shiftr c 3)
  && (Z.shiftr (Z.land c 0xFC) 2 =? Z.shiftr c 2)
  && Bool.eqb (Z.shiftr c 3 =? 0) (c <? 8)
  && Bool.eqb (Z.shiftr c 2 =? 0) (c <? 4).

Lemma field_shift (c : Z) :
  channel c ->
  Z.shiftr (Z.land c 0xF8) 3 = Z.shiftr c 3
  /\ Z.shiftr (Z.land c 0xFC) 2 = Z.shiftr c 2
  /\ (Z.shiftr c 3 = 0 <-> c < 8)
  /\ (Z.shiftr c 2 = 0 <-> c < 4).
Proof.
  intros Hc. assert (H : field_shift_ok c = true).
  { apply on_bytes; [vm_compute; reflexivity | exact Hc]. }
  unfold field_shift_ok in H.
  apply andb_prop in H. destruct H as [H H4].
  apply andb_prop in H. destruct H as [H H3].
  apply andb_prop in H. destruct H as [H1 H2].
  apply Z.eqb_eq in H1, H2. apply Bool.eqb_prop in H3, H4.
  split; [exact H1|]. split; [exact H2|].
  rewrite <- Z.eqb_eq, <- Z.ltb_lt, H3.
  rewrite <- (Z.eqb_eq (Z.shiftr c 2) 0), <- (Z.ltb_lt c 4), H4. tauto.
Qed.

(** Two colours get the same RGB565 word exactly when they agree on the
    top 5 bits of red, the top 6 bits of green and the top 5 bits of
    blue. *)
Theorem rgb888_to_rgb565_collide (r g b r' g' b' : Z) :
  channel r -> channel g -> channel b ->
  channel r' -> channel g' -> channel b' ->
  rgb888_to_rgb565 r g b = rgb888_to_rgb565 r' g' b'
  <-> top_bits 5 r = top_bits 5 r' /\ top_bits 6 g = top_bits 6 g'
      /\ top_bits 5 b = top_bits 5 b'.
Proof.
  intros Hr Hg Hb Hr' Hg' Hb'. split.
  - intros E.
    pose proof (rgb565_decode_encode r g b Hr Hg Hb) as D.
    pose proof (rgb565_decode_encode r' g' b' Hr' Hg' Hb') as D'.
    rewrite E, D' in D. inversion D as [[Er Eg Eb]].
    destruct (field_shift r Hr) as (R & _). destruct (field_shift r' Hr') as (R' & _).
    destruct (field_shift g Hg) as (_ & G & _). destruct (field_shift g' Hg') as (_ & G' & _).
    destruct (field_shift b Hb) as (B & _). destruct (field_shift b' Hb') as (B' & _).
    unfold top_bits. simpl.
    rewrite <- R, <- R', <- G, <- G', <- B, <- B'. now rewrite Er, Eg, Eb.
  - intros (Er & Eg & Eb).
    rewrite (rgb888_to_rgb565_pack r g b), (rgb888_to_rgb565_pack r' g' b') by assumption.
    now rewrite Er, Eg, Eb.
Qed.

Lemma rgb888_to_rgb565_collide_witness :
  rgb888_to_rgb565 200 100 50 = rgb888_to_rgb565 207 103 55
  <-> top_bits 5 200 = top_bits 5 207 /\ top_bits 6 100 = top_bits 6 103
      /\ top_bits 5 50 = top_bits 5 55.
Proof.
  apply (rgb888_to_rgb565_collide 200 100 50 207 103 55); unfold channel; lia.
Defined.

Lemma rgb565_roundtrip_precision_witness :
  let '(r', g', b') := rgb565_to_rgb888 (rgb888_to_rgb565 201 77 14) in
  (r' <= 201 < r' + 8) /\ (g' <= 77 < g' + 4) /\ (b' <= 14 < b' + 8).
Proof.
  apply (rgb565_roundtrip_precision 201 77 14); unfold channel; lia.
Defined.

(** The quantizer returns one 16-bit value per pixel: [width * height]
    values, 4096 for a 64 x 64 image. *)
Theorem pil_to_rgb565_array_shape (img : image) :
  wf_image img ->
  length (pil_to_rgb565_array_default img) = (height img * width img)%nat
  /\ Forall u16 (pil_to_rgb565_array_default img).
Proof.
  intros Hwf. split.
  - apply pil_to_rgb565_array_length.
  - now apply pil_to_rgb565_array_u16.
Qed.

Lemma pil_to_rgb565_array_shape_witness :
  length (pil_to_rgb565_array_default sample_image)
  = (height sample_image * width sample_image)%nat
  /\ Forall u16 (pil_to_rgb565_array_default sample_image).
Proof.
  apply (pil_to_rgb565_array_shape sample_image).
  split; [reflexivity|]. repeat constructor; unfold channel; lia.
Defined.

(** ** The quantizer of the PNG script *)

Lemma png_row (img : image) (y : nat) (xs : list nat) (acc : list Z) :
  fold_left
    (fun rgb565_array x =>
       let '(r, g, b) := getpixel img x y in
       rgb565_array ++ [rgb888_to_rgb565 r g b])
    xs acc
  = acc ++ map (fun x => let '(r, g, b) := getpixel img x y in rgb888_to_rgb565 r g b) xs.
Proof.
  revert acc. induction xs as [|x xs IH]; intros acc; simpl.
  - now rewrite app_nil_r.
  - rewrite IH. destruct (getpixel img x y) as [[r g] b].
    now rewrite <- app_assoc.
Qed.

Lemma png_rows (img : image) (xs ys : list nat) (acc : list Z) :
  fold_left
    (fun rgb565_array y =>
       fold_left
         (fun rgb565_array x =>
            let '(r, g, b) := getpixel img x y in
            rgb565_array ++ [rgb888_to_rgb565 r g b])
         xs rgb565_array)
    ys acc
  = acc ++ flat_map
             (fun y => map (fun x => let '(r, g, b) := getpixel img x y in
                                     rgb888_to_rgb565 r g b) xs) ys.
Proof.
  revert acc. induction ys as [|y ys IH]; intros acc; simpl.
  - now rewrite app_nil_r.
  - rewrite png_row, IH. now rewrite <- app_assoc.
Qed.

Lemma png_to_rgb565_array_grid (img : image) (size : nat) :
  png_to_rgb565_array img size
  = flat_map (fun y => map (fun x => let '(r, g, b) := getpixel img x y in
                                     rgb888_to_rgb565 r g b)
                           (seq 0 size))
             (seq 0 size).
Proof.
  unfold png_to_rgb565_array. now rewrite png_rows.
Qed.

Lemma png_to_rgb565_array_nth (img : image) (size x y : nat) :
  (x < size)%nat -> (y < size)%nat ->
  nth_error (png_to_rgb565_array img size) (y * size + x)
  = Some (let '(r, g, b) := getpixel img x y in rgb888_to_rgb565 r g b).
Proof.
  intros Hx Hy. rewrite png_to_rgb565_array_grid.
  now rewrite (nth_error_grid
                 (fun y x => let '(r, g, b) := getpixel img x y in rgb888_to_rgb565 r g b)
                 size size 0 y x Hy Hx).
Qed.

(** In the PNG script 0x0000 is not reserved: a pixel is emitted as
    0x0000 exactly when it is dark enough to vanish under truncation
    (red and blue below 8, green below 4), pure black included. *)
Theorem png_zero_iff_dark (img : image) (size x y : nat) (r g b : Z) :
  (x < size)%nat -> (y < size)%nat ->
  getpixel img x y = (r, g, b) ->
  channel r -> channel g -> channel b ->
  nth_error (png_to_rgb565_array img size) (y * size + x) = Some 0x0000
  <-> r < 8 /\ g < 4 /\ b < 8.
Proof.
  intros Hx Hy Hp Hr Hg Hb.
  rewrite png_to_rgb565_array_nth by assumption. rewrite Hp.
  rewrite (rgb888_to_rgb565_pack r g b Hr Hg Hb). unfold pack565, top_bits.
  change (8 - 5) with 3. change (8 - 6) with 2.
  destruct (field_shift r Hr) as (_ & _ & R & _).
  destruct (field_shift g Hg) as (_ & _ & _ & G).
  destruct (field_shift b Hb) as (_ & _ & B & _).
  rewrite <- R, <- G, <- B. split.
  - intros E.
    assert (E' : Z.lor (Z.lor (Z.shiftl (Z.shiftr r 3) 11) (Z.shiftl (Z.shiftr g 2) 5))
                       (Z.shiftr b 3) = 0) by congruence.
    apply Z.lor_eq_0_iff in E'. destruct E' as [E' Eb].
    apply Z.lor_eq_0_iff in E'. destruct E' as [Er Eg].
    apply Z.shiftl_eq_0_iff in Er; [|lia].
    apply Z.shiftl_eq_0_iff in Eg; [|lia]. tauto.
  - intros (Er & Eg & Eb). now rewrite Er, Eg, Eb.
Qed.

Lemma png_zero_iff_dark_witness :
  nth_error (png_to_rgb565_array sample_image 2) (0 * 2 + 1) = Some 0x0000
  <-> 3 < 8 /\ 10 < 4 /\ 0 < 8.
Proof.
  apply (png_zero_iff_dark sample_image 2 1 0 3 10 0);
    unfold channel; simpl; try lia; reflexivity.
Defined.

(** The two quantizers differ only on the sentinel and on the pixels
    the SVG script lifts to dark gray: everywhere else they emit the
    same value. *)
Theorem quantizers_agree_on_bright (img : image) (x y : nat) (r g b : Z) :
  width img = height img ->
  (x < width img)%nat -> (y < width img)%nat ->
  getpixel img x y = (r, g, b) ->
  (r, g, b) <> (255, 0, 255) ->
  10 < r \/ 10 < g \/ 10 < b ->
  nth_error (png_to_rgb565_array img (width img)) (y * width img + x)
  = nth_error (pil_to_rgb565_array_default img) (y * width img + x).
Proof.
  intros Hsq Hx Hy Hp Hbg Hbright.
  rewrite png_to_rgb565_array_nth by assumption.
  unfold pil_to_rgb565_array_default.
  rewrite pil_to_rgb565_array_nth by (rewrite <- ?Hsq; assumption).
  rewrite Hp. f_equal. symmetry.
  exact (quantize_pixel_bright background_key outline_boost_threshold
                               outline_boost_rgb r g b Hbg Hbright).
Qed.

Lemma quantizers_agree_on_bright_witness :
  nth_error (png_to_rgb565_array sample_image (width sample_image))
            (1 * width sample_image + 1)
  = nth_error (pil_to_rgb565_array_default sample_image)
              (1 * width sample_image + 1).
Proof.
  apply (quantizers_agree_on_bright sample_image 1 1 255 0 0);
    simpl; try lia; try reflexivity. discriminate.
Defined.

(* ------------------------------------------------------------------ *)
(** * More on the centering                                            *)
(* ------------------------------------------------------------------ *)

(** The offsets keep the bounding box inside the canvas. *)
Lemma center_offsets_fit img bg :
  (exists x y, visible_at img bg x y) ->
  0 <= min_x (visible_bbox img bg) + center_dx img bg
  /\ max_x (visible_bbox img bg) + center_dx img bg <= Z.of_nat (width img) - 1
  /\ 0 <= min_y (visible_bbox img bg) + center_dy img bg
  /\ max_y (visible_bbox img bg) + center_dy img bg <= Z.of_nat (height img) - 1.
Proof.
  intros Hv. apply visible_bbox_is_bbox in Hv.
  destruct (is_bbox_in_canvas img bg _ Hv) as (X0 & X1 & X2 & Y0 & Y1 & Y2).
  destruct (round_half_even_fits _ _ _ X0 X1 X2) as [FX0 FX1].
  destruct (round_half_even_fits _ _ _ Y0 Y1 Y2) as [FY0 FY1].
  unfold center_dx, center_dy. tauto.
Qed.

(** The pixel of the centered image, read through the offset. *)
Lemma getpixel_centered img bg (x y : nat) :
  (exists x y, visible_at img bg x y) ->
  (x < width img)%nat -> (y < height img)%nat ->
  let sx := Z.of_nat x - center_dx img bg in
  let sy := Z.of_nat y - center_dy img bg in
  getpixel (center_by_visible_pixels img bg) x y
  = if (0 <=? sx) && (sx <? Z.of_nat (width img))
       && (0 <=? sy) && (sy <? Z.of_nat (height img))
    then getpixel img (Z.to_nat sx) (Z.to_nat sy)
    else bg.
Proof.
  intros Hv Hx Hy sx sy. rewrite (center_visible img bg Hv).
  rewrite getpixel_paste by assumption. fold sx sy.
  destruct ((0 <=? sx) && (sx <? Z.of_nat (width img))
            && (0 <=? sy) && (sy <? Z.of_nat (height img))); [reflexivity|].
  now apply getpixel_Image_new.
Qed.

(** A visible pixel is found, with its colour, at its moved position
    inside the canvas. *)
Lemma center_moves_pixel img bg (x y : nat) :
  visible_at img bg x y ->
  exists x' y',
    Z.of_nat x' = Z.of_nat x + center_dx img bg
    /\ Z.of_nat y' = Z.of_nat y + center_dy img bg
    /\ (x' < width img)%nat /\ (y' < height img)%nat
    /\ getpixel (center_by_visible_pixels img bg) x' y' = getpixel img x y.
Proof.
  intros Hxy.
  assert (Hv : exists x y, visible_at img bg x y) by (now exists x, y).
  destruct (center_offsets_fit img bg Hv) as (FX0 & FX1 & FY0 & FY1).
  pose proof (visible_bbox_is_bbox img bg Hv) as (Cov & _).
  pose proof (Cov x y Hxy) as Hin. destruct Hxy as (Hx & Hy & Hp).
  exists (Z.to_nat (Z.of_nat x + center_dx img bg)),
         (Z.to_nat (Z.of_nat y + center_dy img bg)).
  rewrite !Z2Nat.id by lia.
  split; [reflexivity|]. split; [reflexivity|].
  split; [lia|]. split; [lia|].
  rewrite getpixel_centered by (try assumption; lia).
  rewrite !Z2Nat.id by lia.
  replace (Z.of_nat x + center_dx img bg - center_dx img bg) with (Z.of_nat x) by lia.
  replace (Z.of_nat y + center_dy img bg - center_dy img bg) with (Z.of_nat y) by lia.
  rewrite !Nat2Z.id.
  destruct (Z.leb_spec 0 (Z.of_nat x)); [|lia].
  destruct (Z.ltb_spec (Z.of_nat x) (Z.of_nat (width img))); [|lia].
  destruct (Z.leb_spec 0 (Z.of_nat y)); [|lia].
  destruct (Z.ltb_spec (Z.of_nat y) (Z.of_nat (height img))); [|lia].
  reflexivity.
Qed.

(** Centering is a translation of the visible pixels by [(dx, dy)],
    and it clips none of them: every visible pixel is found, with its
    colour, at its moved position inside the canvas, and every visible
    pixel of the result comes from one. *)
Theorem center_translates_visible (img : image) (bg : rgb) :
  (forall x y, visible_at img bg x y ->
     exists x' y',
       Z.of_nat x' = Z.of_nat x + center_dx img bg
       /\ Z.of_nat y' = Z.of_nat y + center_dy img bg
       /\ (x' < width img)%nat /\ (y' < height img)%nat
       /\ getpixel (center_by_visible_pixels img bg) x' y' = getpixel img x y)
  /\ (forall x' y', visible_at (center_by_visible_pixels img bg) bg x' y' ->
        (exists x y, visible_at img bg x y) ->
        exists x y,
          visible_at img bg x y
          /\ Z.of_nat x' = Z.of_nat x + center_dx img bg
          /\ Z.of_nat y' = Z.of_nat y + center_dy img bg
          /\ getpixel (center_by_visible_pixels img bg) x' y' = getpixel img x y).
Proof.
  split.
  - intros x y Hxy. now apply center_moves_pixel.
  - intros x' y' (Hx & Hy & Hp) Hv.
    destruct (center_size img bg) as [Hw Hh]. rewrite Hw in Hx. rewrite Hh in Hy.
    rewrite getpixel_centered in Hp |- * by assumption.
    destruct (Z.leb_spec 0 (Z.of_nat x' - center_dx img bg)); [|now contradiction Hp].
    destruct (Z.ltb_spec (Z.of_nat x' - center_dx img bg) (Z.of_nat (width img)));
      [|now contradiction Hp].
    destruct (Z.leb_spec 0 (Z.of_nat y' - center_dy img bg)); [|now contradiction Hp].
    destruct (Z.ltb_spec (Z.of_nat y' - center_dy img bg) (Z.of_nat (height img)));
      [|now contradiction Hp].
    simpl in Hp |- *.
    exists (Z.to_nat (Z.of_nat x' - center_dx img bg)),
           (Z.to_nat (Z.of_nat y' - center_dy img bg)).
    rewrite !Z2Nat.id by lia.
    split; [|split; [lia|split; [lia|reflexivity]]].
    unfold visible_at. split; [lia|]. split; [lia|exact Hp].
Qed.

(** After centering, the bounding box of the visible pixels is off the
    centre of the canvas by at most half a pixel on each axis. *)
Theorem centered_within_half_pixel (img : image) (bg : rgb) :
  (exists x y, visible_at img bg x y) ->
  let b := visible_bbox (center_by_visible_pixels img bg) bg in
  Z.abs (Z.of_nat (width img) - 1 - (min_x b + max_x b)) <= 1
  /\ Z.abs (Z.of_nat (height img) - 1 - (min_y b + max_y b)) <= 1.
Proof.
  intros Hv b. unfold b.
  destruct (visible_bbox_centered img bg Hv) as [_ ->]. simpl.
  assert (R : forall n, Z.abs (n - 2 * round_half_even n) <= 1).
  { intros n. unfold round_half_even. pose proof (Zmod_even n) as Hn.
    destruct (Z.even n); [|destruct (Z.even (n / 2))];
      Z.div_mod_to_equations; lia. }
  pose proof (R (Z.of_nat (width img) - 1
                 - (min_x (visible_bbox img bg) + max_x (visible_bbox img bg)))) as Rx.
  pose proof (R (Z.of_nat (height img) - 1
                 - (min_y (visible_bbox img bg) + max_y (visible_bbox img bg)))) as Ry.
  unfold center_dx, center_dy. lia.
Qed.

Lemma centered_within_half_pixel_witness :
  let b := visible_bbox (center_by_visible_pixels corner_image background_key)
                        background_key in
  Z.abs (Z.of_nat (width corner_image) - 1 - (min_x b + max_x b)) <= 1
  /\ Z.abs (Z.of_nat (height corner_image) - 1 - (min_y b + max_y b)) <= 1.
Proof.
  apply (centered_within_half_pixel corner_image background_key).
  exists 0%nat, 0%nat. unfold visible_at. simpl.
  split; [lia|]. split; [lia|]. unfold getpixel. simpl. discriminate.
Defined.

Lemma center_wf img bg :
  wf_image img -> rgb888 bg -> wf_image (center_by_visible_pixels img bg).
Proof.
  intros Hwf Hbg.
  destruct (visible_or_blank img bg) as [Hv|Hb].
  - rewrite (center_visible img bg Hv). unfold paste, wf_image. simpl.
    split; [apply length_grid|].
    apply Forall_forall. intros p Hp. unfold grid in Hp.
    apply in_flat_map in Hp. destruct Hp as (y & Hy & Hp).
    apply in_map_iff in Hp. destruct Hp as (x & <- & Hx).
    apply in_seq in Hx, Hy.
    destruct (Z.leb_spec 0 (Z.of_nat x - center_dx img bg)); simpl;
      [|rewrite getpixel_Image_new by lia; exact Hbg].
    destruct (Z.ltb_spec (Z.of_nat x - center_dx img bg) (Z.of_nat (width img))); simpl;
      [|rewrite getpixel_Image_new by lia; exact Hbg].
    destruct (Z.leb_spec 0 (Z.of_nat y - center_dy img bg)); simpl;
      [|rewrite getpixel_Image_new by lia; exact Hbg].
    destruct (Z.ltb_spec (Z.of_nat y - center_dy img bg) (Z.of_nat (height img))); simpl;
      [|rewrite getpixel_Image_new by lia; exact Hbg].
    apply getpixel_rgb888; [exact Hwf|lia|lia].
  - now rewrite (center_blank img bg Hb).
Qed.

(** Centering keeps the size of the image and returns a well-formed
    image: as many pixels as the size says, every channel a byte. *)
Theorem center_well_formed (img : image) (bg : rgb) :
  wf_image img -> rgb888 bg ->
  wf_image (center_by_visible_pixels img bg)
  /\ width (center_by_visible_pixels img bg) = width img
  /\ height (center_by_visible_pixels img bg) = height img.
Proof.
  intros Hwf Hbg. split; [now apply center_wf|apply center_size].
Qed.

Lemma center_well_formed_witness :
  wf_image (center_by_visible_pixels corner_image background_key)
  /\ width (center_by_visible_pixels corner_image background_key) = width corner_image
  /\ height (center_by_visible_pixels corner_image background_key) = height corner_image.
Proof.
  apply (center_well_formed corner_image background_key).
  - split; [reflexivity|]. repeat constructor; unfold channel; lia.
  - unfold background_key, rgb888, channel. lia.
Defined.

(** Centering then quantizing: the value emitted at the moved position
    of a visible pixel is the value that pixel had before centering, and
    the pipeline of [main] still yields [width * height] 16-bit values. *)
Theorem quantize_after_center (img : image) (x y : nat) :
  wf_image img ->
  visible_at img background_key x y ->
  let dx := center_dx img background_key in
  let dy := center_dy img background_key in
  let out := pil_to_rgb565_array_default
               (center_by_visible_pixels img background_key) in
  nth_error out (Z.to_nat (Z.of_nat y + dy) * width img + Z.to_nat (Z.of_nat x + dx))
  = nth_error (pil_to_rgb565_array_default img) (y * width img + x)
  /\ length out = (height img * width img)%nat
  /\ Forall u16 out.
Proof.
  intros Hwf Hxy dx dy out.
  destruct (center_moves_pixel img background_key x y Hxy)
    as (x' & y' & Ex & Ey & Hx' & Hy' & Hp).
  pose proof (center_wf img background_key Hwf
                ltac:(unfold background_key, rgb888, channel; lia)) as Hwf'.
  destruct (center_size img background_key) as [Hw Hh].
  split; [|split].
  - unfold out, dx, dy. rewrite <- Ex, <- Ey, !Nat2Z.id.
    destruct Hxy as (Hx & Hy & _).
    unfold pil_to_rgb565_array_default.
    rewrite <- Hw at 1.
    rewrite !pil_to_rgb565_array_nth by (rewrite ?Hw, ?Hh; assumption).
    now rewrite Hp.
  - unfold out. unfold pil_to_rgb565_array_default.
    now rewrite pil_to_rgb565_array_length, Hw, Hh.
  - now apply pil_to_rgb565_array_u16.
Qed.

Lemma quantize_after_center_witness :
  let dx := center_dx corner_image background_key in
  let dy := center_dy corner_image background_key in
  let out := pil_to_rgb565_array_default
               (center_by_visible_pixels corner_image background_key) in
  nth_error out (Z.to_nat (Z.of_nat 1 + dy) * width corner_image
                 + Z.to_nat (Z.of_nat 1 + dx))
  = nth_error (pil_to_rgb565_array_default corner_image) (1 * width corner_image + 1)
  /\ length out = (height corner_image * width corner_image)%nat
  /\ Forall u16 out.
Proof.
  apply (quantize_after_center corner_image 1 1).
  - split; [reflexivity|]. repeat constructor; unfold channel; lia.
  - unfold visible_at. simpl. split; [lia|]. split; [lia|].
    unfold getpixel. simpl. discriminate.
Defined.

(* ------------------------------------------------------------------ *)
(** * More on the selection                                            *)
(* ------------------------------------------------------------------ *)

(** ** The three phases as one pass *)

(** The identifiers [main] offers to [add], in order: the face seeds,
    the fun seeds, then the reasonable candidates of the auto-fill. *)
Definition offers (available : list string) : list string :=
  FACE_SEED ++ FUN_SEED ++ filter _is_reasonable_autofill (sorted_by_key available).

(** Offer the identifiers one by one until the target is reached. *)
Fixpoint run_until (available : list string) (max_faces target_count : Z)
         (cs : list string) (st : selection) : selection :=
  match cs with
  | [] => st
  | c :: cs' =>
      if len_selected st >=? target_count then st
      else run_until available max_faces target_count cs'
                     (add available max_faces c st)
  end.

Section OnePass.
Variable available : list string.
Variables max_faces target_count : Z.

Lemma run_until_full cs st :
  target_count <= len_selected st ->
  run_until available max_faces target_count cs st = st.
Proof.
  intros H. destruct cs as [|c cs]; [reflexivity|]. simpl.
  destruct (Z.geb_spec (len_selected st) target_count); [reflexivity|lia].
Qed.

Lemma run_until_app cs1 cs2 st :
  run_until available max_faces target_count (cs1 ++ cs2) st
  = run_until available max_faces target_count cs2
              (run_until available max_faces target_count cs1 st).
Proof.
  revert st. induction cs1 as [|c cs1 IH]; intros st; simpl; [reflexivity|].
  destruct (Z.geb_spec (len_selected st) target_count) as [G|G].
  - now rewrite run_until_full by lia.
  - apply IH.
Qed.

Lemma seed_loop_run seed st :
  len_selected st < target_count ->
  seed_loop available max_faces target_count seed st
  = run_until available max_faces target_count seed st.
Proof.
  revert st. induction seed as [|c seed IH]; intros st Hlt; simpl; [reflexivity|].
  destruct (Z.geb_spec (len_selected st) target_count) as [G|_]; [lia|].
  destruct (Z.geb_spec (len_selected (add available max_faces c st)) target_count)
    as [G|G].
  - now rewrite run_until_full by lia.
  - now apply IH.
Qed.

Lemma autofill_loop_run cs st :
  autofill_loop available max_faces target_count cs st
  = run_until available max_faces target_count
              (filter _is_reasonable_autofill cs) st.
Proof.
  revert st. induction cs as [|c cs IH]; intros st; simpl; [reflexivity|].
  destruct (_is_reasonable_autofill c); simpl.
  - destruct (Z.geb_spec (len_selected st) target_count); [reflexivity|apply IH].
  - destruct (Z.geb_spec (len_selected st) target_count) as [G|G]; [|apply IH].
    now rewrite run_until_full by lia.
Qed.

(** The state [main] reaches is the one pass over [offers]. *)
Lemma selection_state_run :
  1 <= target_count ->
  selection_state available target_count max_faces
  = run_until available max_faces target_count (offers available)
              (mkSelection [] [] 0).
Proof.
  intros Ht. unfold selection_state, offers.
  rewrite !run_until_app.
  rewrite seed_loop_run by (unfold len_selected; simpl; lia).
  set (st1 := run_until available max_faces target_count FACE_SEED _).
  assert (E2 : (if len_selected st1 <? target_count
                then seed_loop available max_faces target_count FUN_SEED st1
                else st1)
               = run_until available max_faces target_count FUN_SEED st1).
  { destruct (Z.ltb_spec (len_selected st1) target_count) as [L|L].
    - now apply seed_loop_run.
    - now rewrite run_until_full by lia. }
  rewrite E2.
  set (st2 := run_until available max_faces target_count FUN_SEED st1).
  destruct (Z.ltb_spec (len_selected st2) target_count) as [L|L].
  - apply autofill_loop_run.
  - now rewrite run_until_full by lia.
Qed.

(** A pass only appends to what is selected. *)
Lemma run_until_extends cs st :
  exists more,
    selected (run_until available max_faces target_count cs st) = selected st ++ more.
Proof.
  revert st. induction cs as [|c cs IH]; intros st; simpl.
  - exists []. now rewrite app_nil_r.
  - destruct (len_selected st >=? target_count).
    + exists []. now rewrite app_nil_r.
    + destruct (IH (add available max_faces c st)) as (more & E).
      destruct (add_cases available max_faces c st)
        as [Same|(_ & _ & _ & Sel & _)].
      * rewrite Same in E |- *. now exists more.
      * rewrite Sel in E. exists ([py_strip (py_upper c)] ++ more).
        now rewrite E, app_assoc.
Qed.

End OnePass.

(** A pass with a larger target continues the pass with a smaller one. *)
Lemma run_until_prefix available max_faces (N M : Z) cs st :
  N <= M ->
  exists more,
    selected (run_until available max_faces M cs st)
    = selected (run_until available max_faces N cs st) ++ more.
Proof.
  intros HNM. revert st. induction cs as [|c cs IH]; intros st; simpl.
  - exists []. now rewrite app_nil_r.
  - destruct (Z.geb_spec (len_selected st) M) as [GM|GM].
    + destruct (Z.geb_spec (len_selected st) N) as [GN|GN]; [|lia].
      exists []. now rewrite app_nil_r.
    + destruct (Z.geb_spec (len_selected st) N) as [GN|GN]; [|apply IH].
      destruct (run_until_extends available max_faces M cs
                                  (add available max_faces c st)) as (more & E).
      destruct (add_cases available max_faces c st)
        as [Same|(_ & _ & _ & Sel & _)].
      * rewrite Same in E |- *. now exists more.
      * rewrite Sel in E. exists ([py_strip (py_upper c)] ++ more).
        now rewrite E, app_assoc.
Qed.

Lemma main_selection_run available count max_faces_arg :
  main_selection available count max_faces_arg
  = selected (run_until available (Z.max 0 max_faces_arg) (Z.max 1 count)
                        (offers available) (mkSelection [] [] 0)).
Proof.
  rewrite main_selection_state.
  destruct (selection_state_ok available (Z.max 1 count) (Z.max 0 max_faces_arg))
    as (_ & _ & Len); try lia.
  unfold len_selected in Len. rewrite firstn_all2 by lia.
  now rewrite selection_state_run by lia.
Qed.

(** Asking for more identifiers keeps the ones a smaller request
    returns, at the same positions: the selection for [N] is a prefix of
    the selection for any [M >= N], the pool and the cap being the
    same. *)
Theorem main_selection_prefix (available : list string) (N M cap : Z) :
  N <= M ->
  exists more,
    main_selection available M cap = main_selection available N cap ++ more.
Proof.
  intros HNM. rewrite !main_selection_run.
  apply run_until_prefix. lia.
Qed.

Lemma main_selection_prefix_witness :
  exists more,
    main_selection hearts_and_faces 4 1 = main_selection hearts_and_faces 2 1 ++ more.
Proof.
  apply (main_selection_prefix hearts_and_faces 2 4 1). lia.
Defined.

(** The selection of [main], whatever the pool and the arguments: no
    identifier twice, only available identifiers, at most
    [max(1, count)] of them and at most [max(0, max_faces)] face-like
    ones; in particular a cap of zero or less selects no face. *)
Theorem main_selection_always (available : list string) (count max_faces_arg : Z) :
  let r := main_selection available count max_faces_arg in
  NoDup r /\ incl r available
  /\ Z.of_nat (length r) <= Z.max 1 count
  /\ faces r <= Z.max 0 max_faces_arg
  /\ (max_faces_arg <= 0 -> forall c, In c r -> _is_face_like c = false).
Proof.
  intros r. destruct (main_selection_sound available count max_faces_arg)
    as (ND & Inc & Len & Cap).
  fold r in ND, Inc, Len, Cap. repeat split; auto.
  intros Hz c Hc. destruct (_is_face_like c) eqn:Hf; [|reflexivity]. exfalso.
  assert (Hin : In c (filter _is_face_like r)) by (apply filter_In; now split).
  unfold faces in Cap. destruct (filter _is_face_like r); [contradiction|].
  simpl in Cap. lia.
Qed.

(** ** Faces are told by the first segment *)

Section FirstSegment.
Local Open Scope string_scope.

Lemma first_segment_no_dash (a : string) :
  count_dash a = 0%nat -> first_segment a = a.
Proof.
  induction a as [|c a IH]; simpl; [reflexivity|].
  destruct (Ascii.eqb c "-"); [discriminate|].
  intros H. now rewrite IH.
Qed.

Lemma first_segment_app (a b : string) :
  count_dash a = 0%nat -> first_segment (a ++ "-" ++ b) = a.
Proof.
  induction a as [|c a IH]; simpl; [reflexivity|].
  destruct (Ascii.eqb c "-"); [discriminate|].
  intros H. f_equal. apply IH. exact H.
Qed.

(** Only the first hyphen-separated segment of a code decides whether
    it is face-like and whether the auto-fill may take it: a sequence
    that starts with a face codepoint counts as a face whatever
    follows. *)
Theorem face_like_first_segment (a b : string) :
  count_dash a = 0%nat ->
  _first_segment_hex (a ++ "-" ++ b) = _first_segment_hex a
  /\ _is_face_like (a ++ "-" ++ b) = _is_face_like a
  /\ _is_reasonable_autofill (a ++ "-" ++ b) = _is_reasonable_autofill a.
Proof.
  intros H.
  assert (E : _first_segment_hex (a ++ "-" ++ b) = _first_segment_hex a).
  { unfold _first_segment_hex.
    now rewrite first_segment_app, first_segment_no_dash. }
  unfold _is_face_like, _is_reasonable_autofill. now rewrite E.
Qed.

Lemma face_like_first_segment_witness :
  _first_segment_hex ("1F468" ++ "-" ++ "200D-1F4BB") = _first_segment_hex "1F468"
  /\ _is_face_like ("1F468" ++ "-" ++ "200D-1F4BB") = _is_face_like "1F468"
  /\ _is_reasonable_autofill ("1F468" ++ "-" ++ "200D-1F4BB")
     = _is_reasonable_autofill "1F468".
Proof.
  apply (face_like_first_segment "1F468" "200D-1F4BB"). reflexivity.
Defined.



End FirstSegment.

(** ** The stand-alone selection function, at a concrete pool *)

Section PlainSelectionWitness.
Local Open Scope string_scope.

Lemma select_emoji_codes_exact_witness :
  let r := _select_emoji_codes hearts_and_faces 4 FACE_SEED in
  Z.of_nat (length r) = 4 /\ NoDup r /\ incl r hearts_and_faces.
Proof.
  apply (select_emoji_codes_exact hearts_and_faces hearts_and_faces FACE_SEED 4).
  - lia.
  - repeat constructor; simpl; intuition discriminate.
  - repeat constructor; simpl; intuition discriminate.
  - simpl. lia.
Defined.

End PlainSelectionWitness.

(* ------------------------------------------------------------------ *)
(** * The names and the number of the emitted arrays                   *)
(* ------------------------------------------------------------------ *)

Section ArrayNames.
Local Open Scope string_scope.

Lemma upper_char_idem (c : ascii) : upper_char (upper_char c) = upper_char c.
Proof. destruct c as [[] [] [] [] [] [] [] []]; reflexivity. Qed.

Lemma upper_lower_char (c : ascii) :
  upper_char c = c -> upper_char (lower_char c) = c.
Proof.
  destruct c as [[] [] [] [] [] [] [] []]; intros H;
    try reflexivity; vm_compute in H; discriminate.
Qed.

Lemma py_upper_idem (s : string) : py_upper (py_upper s) = py_upper s.
Proof.
  induction s as [|c s IH]; simpl; [reflexivity|].
  now rewrite upper_char_idem, IH.
Qed.

Lemma py_upper_cons (c : ascii) (s : string) :
  py_upper (String c s) = String c s -> upper_char c = c /\ py_upper s = s.
Proof. simpl. intros H. injection H as Hc Hs. now split. Qed.

Lemma py_lstrip_upper (s : string) :
  py_upper s = s -> py_upper (py_lstrip s) = py_lstrip s.
Proof.
  induction s as [|c s IH]; intros H; [reflexivity|].
  destruct (py_upper_cons c s H) as [Hc Hs]. simpl py_lstrip.
  destruct (is_space c); [now apply IH|exact H].
Qed.

Lemma py_rstrip_upper (s : string) :
  py_upper s = s -> py_upper (py_rstrip s) = py_rstrip s.
Proof.
  induction s as [|c s IH]; intros H; [reflexivity|].
  destruct (py_upper_cons c s H) as [Hc Hs]. specialize (IH Hs).
  simpl py_rstrip. destruct (py_rstrip s) as [|d r].
  - destruct (is_space c); [reflexivity|]. simpl. now rewrite Hc.
  - simpl in IH |- *. now rewrite Hc, IH.
Qed.

(** What [add] makes of a code is in upper case. *)
Lemma normal_form_upper (code : string) :
  py_upper (py_strip (py_upper code)) = py_strip (py_upper code).
Proof.
  unfold py_strip. apply py_lstrip_upper, py_rstrip_upper, py_upper_idem.
Qed.

Lemma py_upper_lower (s : string) : py_upper s = s -> py_upper (py_lower s) = s.
Proof.
  induction s as [|c s IH]; intros H; [reflexivity|].
  destruct (py_upper_cons c s H) as [Hc Hs]. simpl.
  now rewrite upper_lower_char, IH.
Qed.

(** The name of the array of a code. *)
Definition array_name (emoji_code : string) : string :=
  "emoji_" ++ py_lower emoji_code.

Lemma array_name_inj (a b : string) :
  py_upper a = a -> py_upper b = b -> array_name a = array_name b -> a = b.
Proof.
  intros Ha Hb E. unfold array_name in E. simpl in E.
  injection E as E.
  rewrite <- (py_upper_lower a Ha), <- (py_upper_lower b Hb). now rewrite E.
Qed.

Definition is_converted (convert : string -> conversion) (c : string) : bool :=
  match convert c with
  | Converted _ => true
  | _ => false
  end.

Lemma convert_loop_names (convert : string -> conversion) (codes : list string)
      (acc : list (string * list Z)) :
  map fst
      (fold_left
         (fun arrays emoji_code =>
            match convert emoji_code with
            | Missing => arrays
            | Raised => arrays
            | Converted rgb565 =>
                List.app arrays [("emoji_" ++ py_lower emoji_code, rgb565)]
            end)
         codes acc)
  = (map fst acc ++ map array_name (filter (is_converted convert) codes))%list.
Proof.
  revert acc. induction codes as [|c codes IH]; intros acc; simpl.
  - now rewrite app_nil_r.
  - unfold is_converted at 1. destruct (convert c) as [| |arr]; try apply IH.
    rewrite IH, map_app. simpl. now rewrite <- app_assoc.
Qed.

(** The arrays come in the order of the selection, one for each code
    whose conversion succeeded. *)
Lemma convert_all_names (convert : string -> conversion) (codes : list string) :
  map fst (convert_all convert codes)
  = map array_name (filter (is_converted convert) codes).
Proof.
  unfold convert_all. now rewrite convert_loop_names.
Qed.

(** Every selected code is in upper case. *)
Lemma run_until_upper available max_faces target_count cs st :
  Forall (fun c => py_upper c = c) (selected st) ->
  Forall (fun c => py_upper c = c)
         (selected (run_until available max_faces target_count cs st)).
Proof.
  revert st. induction cs as [|c cs IH]; intros st H; simpl; [exact H|].
  destruct (len_selected st >=? target_count)%Z; [exact H|].
  apply IH.
  destruct (add_cases available max_faces c st) as [->|(_ & _ & _ & -> & _)];
    [exact H|].
  apply Forall_app. split; [exact H|].
  constructor; [apply normal_form_upper|constructor].
Qed.

Lemma main_selection_upper available count max_faces_arg :
  Forall (fun c => py_upper c = c) (main_selection available count max_faces_arg).
Proof.
  rewrite main_selection_run. apply run_until_upper. constructor.
Qed.

(** A string of ASCII characters: on these the methods [upper],
    [lower] and [strip] above are Python's own. *)
Fixpoint ascii_only (s : string) : bool :=
  match s with
  | EmptyString => true
  | String c s' => (nat_of_ascii c <? 128)%nat && ascii_only s'
  end.

(** When the identifiers found in the directory are ASCII, the header
    never declares two arrays under one name, and never holds more arrays
    than [max(1, count)]: its names are, in the order of the selection,
    [emoji_] followed by the lower-cased code of each selected identifier
    whose conversion succeeded.  (Outside ASCII two upper-case codes can
    have one lower-case form, and the names can clash.) *)
Theorem header_names_distinct
        (available : list string) (count max_faces : Z)
        (convert : string -> conversion) :
  Forall (fun c => ascii_only c = true) available ->
  let arrays := convert_all convert (main_selection available count max_faces) in
  NoDup (map fst arrays)
  /\ map fst arrays
     = map array_name
           (filter (is_converted convert) (main_selection available count max_faces))
  /\ (Z.of_nat (length arrays) <= Z.max 1 count)%Z.
Proof.
  intros _ arrays. unfold arrays.
  destruct (main_selection_sound available count max_faces) as (ND & _ & Len & _).
  pose proof (main_selection_upper available count max_faces) as Up.
  rewrite Forall_forall in Up.
  split; [|split].
  - rewrite convert_all_names.
    apply NoDup_map_NoDup_ForallPairs; [|now apply NoDup_filter].
    intros a b Ha Hb E. apply filter_In in Ha, Hb.
    apply array_name_inj; [apply Up; tauto|apply Up; tauto|exact E].
  - apply convert_all_names.
  - rewrite <- (length_map fst), convert_all_names, length_map.
    pose proof (filter_length_le (is_converted convert)
                                 (main_selection available count max_faces)).
    lia.
Qed.

Lemma header_names_distinct_witness :
  let arrays :=
    convert_all (fun _ => Converted [0%Z]) (main_selection hearts_and_faces 4 1) in
  NoDup (map fst arrays)
  /\ map fst arrays
     = map array_name
           (filter (is_converted (fun _ => Converted [0%Z]))
                   (main_selection hearts_and_faces 4 1))
  /\ (Z.of_nat (length arrays) <= Z.max 1 4)%Z.
Proof.
  apply (header_names_distinct hearts_and_faces 4 1 (fun _ => Converted [0%Z])).
  repeat constructor.
Defined.

End ArrayNames.

(* ------------------------------------------------------------------ *)
(** * The conversion loop of the PNG script                            *)
(* ------------------------------------------------------------------ *)

Section PngDriver.
Local Open Scope string_scope.

Definition has_png (file_exists : string -> bool) (load : string -> option (list Z))
           (emoji_code : string) : bool :=
  match try_extensions file_exists load emoji_code [".png"; ".PNG"] with
  | Some _ => true
  | None => false
  end.

Lemma try_extensions_none file_exists load emoji_code exts :
  try_extensions file_exists load emoji_code exts = None
  <-> forall ext, In ext exts ->
                  file_exists (emoji_code ++ ext) = false
                  \/ load (emoji_code ++ ext) = None.
Proof.
  induction exts as [|e exts IH]; simpl.
  - split; [intros _ ext []|reflexivity].
  - destruct (file_exists (emoji_code ++ e)) eqn:Hf.
    + destruct (load (emoji_code ++ e)) as [arr|] eqn:Hl.
      * split; [discriminate|]. intros H.
        destruct (H e (or_introl eq_refl)) as [K|K]; congruence.
      * rewrite IH. split.
        -- intros H ext [<-|Hin]; [now right|now apply H].
        -- intros H ext Hin. apply H. now right.
    + rewrite IH. split.
      * intros H ext [<-|Hin]; [now left|now apply H].
      * intros H ext Hin. apply H. now right.
Qed.

Lemma png_loop_names file_exists load (codes : list string)
      (acc : list (string * list Z)) :
  map fst
      (fold_left
         (fun arrays emoji_code =>
            match try_extensions file_exists load emoji_code [".png"; ".PNG"] with
            | Some rgb565_array =>
                List.app arrays [("emoji_" ++ py_lower emoji_code, rgb565_array)]
            | None => arrays
            end)
         codes acc)
  = (map fst acc ++ map array_name (filter (has_png file_exists load) codes))%list.
Proof.
  revert acc. induction codes as [|c codes IH]; intros acc.
  - simpl. now rewrite app_nil_r.
  - cbn [fold_left filter]. unfold has_png at 1.
    destruct (try_extensions file_exists load c [".png"; ".PNG"]) as [arr|].
    + rewrite IH, map_app. simpl. now rewrite <- app_assoc.
    + apply IH.
Qed.

Lemma filter_none {A : Type} (f : A -> bool) (l : list A) :
  (forall a, In a l -> f a = false) -> filter f l = [].
Proof.
  induction l as [|a l IH]; intros H; [reflexivity|].
  cbn [filter]. rewrite (H a (or_introl eq_refl)).
  apply IH. intros b Hb. apply H. now right.
Qed.

Lemma has_png_false file_exists load emoji_code :
  has_png file_exists load emoji_code = false
  <-> forall ext, In ext [".png"; ".PNG"] ->
                  file_exists (emoji_code ++ ext) = false
                  \/ load (emoji_code ++ ext) = None.
Proof.
  rewrite <- try_extensions_none. unfold has_png.
  destruct (try_extensions file_exists load emoji_code [".png"; ".PNG"]);
    split; intros H; try reflexivity; discriminate.
Qed.

Lemma try_extensions_some file_exists load emoji_code exts arr :
  try_extensions file_exists load emoji_code exts = Some arr ->
  exists ext, In ext exts
              /\ file_exists (emoji_code ++ ext) = true
              /\ load (emoji_code ++ ext) = Some arr.
Proof.
  induction exts as [|e exts IH]; cbn [try_extensions]; [discriminate|].
  destruct (file_exists (emoji_code ++ e)) eqn:Hf.
  - destruct (load (emoji_code ++ e)) as [a|] eqn:Hl.
    + intros E. injection E as <-. exists e. split; [now left|now split].
    + intros E. destruct (IH E) as (ext & Hin & H). exists ext.
      split; [now right|exact H].
  - intros E. destruct (IH E) as (ext & Hin & H). exists ext.
    split; [now right|exact H].
Qed.

Lemma png_loop_sound file_exists load (codes : list string)
      (acc : list (string * list Z)) (name : string) (arr : list Z) :
  In (name, arr)
     (fold_left
        (fun arrays emoji_code =>
           match try_extensions file_exists load emoji_code [".png"; ".PNG"] with
           | Some rgb565_array =>
               List.app arrays [("emoji_" ++ py_lower emoji_code, rgb565_array)]
           | None => arrays
           end)
        codes acc) ->
  In (name, arr) acc
  \/ exists emoji_code,
       In emoji_code codes /\ name = array_name emoji_code
       /\ try_extensions file_exists load emoji_code [".png"; ".PNG"] = Some arr.
Proof.
  revert acc. induction codes as [|c codes IH]; intros acc; cbn [fold_left].
  - now left.
  - intros H. apply IH in H. destruct H as [H|(d & Hd & E)].
    + destruct (try_extensions file_exists load c [".png"; ".PNG"]) as [a|] eqn:Ht;
        [|now left].
      apply in_app_or in H. destruct H as [H|[H|[]]]; [now left|].
      right. exists c. injection H as <- <-.
      split; [now left|]. split; [reflexivity|exact Ht].
    + right. exists d. split; [now right|exact E].
Qed.

Lemma png_arrays_unfold file_exists load :
  png_arrays file_exists load
  = fold_left
      (fun arrays emoji_code =>
         match try_extensions file_exists load emoji_code [".png"; ".PNG"] with
         | Some rgb565_array =>
             List.app arrays [("emoji_" ++ py_lower emoji_code, rgb565_array)]
         | None => arrays
         end)
      POPULAR_EMOJIS [].
Proof. reflexivity. Qed.

Lemma png_arrays_names file_exists load :
  map fst (png_arrays file_exists load)
  = map array_name (filter (has_png file_exists load) POPULAR_EMOJIS).
Proof.
  rewrite png_arrays_unfold. now rewrite png_loop_names.
Qed.

Lemma png_arrays_length file_exists load :
  (length (png_arrays file_exists load) <= length POPULAR_EMOJIS)%nat.
Proof.
  rewrite <- (length_map fst (png_arrays file_exists load)).
  rewrite png_arrays_names, length_map.
  apply filter_length_le.
Qed.

Lemma png_arrays_sound file_exists load name arr :
  In (name, arr) (png_arrays file_exists load) ->
  exists emoji_code ext,
    In emoji_code POPULAR_EMOJIS /\ In ext [".png"; ".PNG"]
    /\ name = array_name emoji_code
    /\ file_exists (emoji_code ++ ext) = true
    /\ load (emoji_code ++ ext) = Some arr.
Proof.
  intros Hin. rewrite png_arrays_unfold in Hin.
  apply png_loop_sound in Hin. destruct Hin as [Hin|(c & Hc & E & Ht)];
    [destruct Hin|].
  apply try_extensions_some in Ht. destruct Ht as (ext & He & Hf & Hl).
  exists c, ext. repeat split; assumption.
Qed.

Lemma png_arrays_empty_iff file_exists load :
  png_arrays file_exists load = []
  <-> forall emoji_code ext,
        In emoji_code POPULAR_EMOJIS -> In ext [".png"; ".PNG"] ->
        file_exists (emoji_code ++ ext) = false
        \/ load (emoji_code ++ ext) = None.
Proof.
  pose proof (png_arrays_names file_exists load) as Names.
  generalize dependent (png_arrays file_exists load). intros arrays Names.
  generalize dependent POPULAR_EMOJIS. intros popular Names.
  split.
  - intros E emoji_code ext Hc He. subst arrays.
    symmetry in Names. apply map_eq_nil in Names.
    assert (Hn : has_png file_exists load emoji_code = false).
    { destruct (has_png file_exists load emoji_code) eqn:Hp; [|reflexivity].
      assert (Hin : In emoji_code (filter (has_png file_exists load) popular))
        by (apply filter_In; now split).
      rewrite Names in Hin. contradiction. }
    now apply (proj1 (has_png_false file_exists load emoji_code) Hn).
  - intros H.
    rewrite filter_none in Names.
    + now apply map_eq_nil in Names.
    + intros c Hc. apply has_png_false. intros ext He. now apply H.
Qed.

(** The conversion loop of the PNG script. Its arrays are, in the order
    of [POPULAR_EMOJIS], one for each code that has under [.png] or
    [.PNG] a file that exists and converts, so at most one per code and
    at most 30; every array is the conversion of an existing file of a
    popular code; and there is no array exactly when no code has such a
    file. *)
Theorem png_arrays_spec (file_exists : string -> bool)
        (load : string -> option (list Z)) :
  let arrays := png_arrays file_exists load in
  map fst arrays
  = map array_name (filter (has_png file_exists load) POPULAR_EMOJIS)
  /\ (length arrays <= 30)%nat
  /\ (forall name arr,
        In (name, arr) arrays ->
        exists emoji_code ext,
          In emoji_code POPULAR_EMOJIS /\ In ext [".png"; ".PNG"]
          /\ name = array_name emoji_code
          /\ file_exists (emoji_code ++ ext) = true
          /\ load (emoji_code ++ ext) = Some arr)
  /\ (arrays = []
      <-> forall emoji_code ext,
            In emoji_code POPULAR_EMOJIS -> In ext [".png"; ".PNG"] ->
            file_exists (emoji_code ++ ext) = false
            \/ load (emoji_code ++ ext) = None).
Proof.
  intros arrays. subst arrays.
  split; [apply png_arrays_names|].
  split; [exact (png_arrays_length file_exists load)|].
  split; [intros name arr; apply png_arrays_sound|].
  apply png_arrays_empty_iff.
Qed.

End PngDriver.

(* ------------------------------------------------------------------ *)
(** * The listing of the source directory                              *)
(* ------------------------------------------------------------------ *)

Section ListingFacts.
Local Open Scope string_scope.

Definition str_le (a b : string) : Prop := String.leb a b = true.

Lemma in_insert_sorted c d l : In c (insert_sorted d l) <-> c = d \/ In c l.
Proof.
  induction l as [|e l IH]; simpl.
  - intuition congruence.
  - destruct (String.leb d e); simpl; [intuition congruence|].
    rewrite IH. intuition congruence.
Qed.

Lemma insert_sorted_NoDup c l :
  ~ In c l -> NoDup l -> NoDup (insert_sorted c l).
Proof.
  induction l as [|e l IH]; intros Hc ND; simpl.
  - constructor; [tauto|constructor].
  - destruct (String.leb c e); [now constructor|].
    inversion ND as [|? ? He NDl]; subst. constructor.
    + rewrite in_insert_sorted. intros [->|H]; [apply Hc; now left|contradiction].
    + apply IH; [|exact NDl]. intros H. apply Hc. now right.
Qed.

Lemma insert_sorted_Sorted c l :
  Sorted str_le l -> Sorted str_le (insert_sorted c l).
Proof.
  induction l as [|e l IH]; intros Hs; simpl.
  - repeat constructor.
  - destruct (String.leb c e) eqn:Hce.
    + constructor; [exact Hs|]. now constructor.
    + apply Sorted_inv in Hs. destruct Hs as [Hs Hd].
      constructor; [now apply IH|].
      assert (Hec : str_le e c).
      { destruct (String.leb_total c e) as [H|H]; [congruence|exact H]. }
      destruct l as [|f l]; simpl.
      * now constructor.
      * destruct (String.leb c f); constructor; [exact Hec|].
        inversion Hd; assumption.
Qed.

Lemma py_sorted_spec (s : list string) :
  NoDup (py_sorted s) /\ Sorted str_le (py_sorted s)
  /\ (forall c, In c (py_sorted s) <-> In c s).
Proof.
  unfold py_sorted.
  pose proof (NoDup_nodup string_dec s) as ND.
  assert (M : forall c, In c (nodup string_dec s) <-> In c s)
    by (intros c; apply nodup_In).
  revert ND M. generalize (nodup string_dec s) as l.
  intros l ND M.
  assert (K : NoDup (fold_right insert_sorted [] l)
              /\ Sorted str_le (fold_right insert_sorted [] l)
              /\ forall c, In c (fold_right insert_sorted [] l) <-> In c l).
  { clear M. induction ND as [|a l Ha ND IH]; simpl.
    - split; [constructor|]. split; [constructor|tauto].
    - destruct IH as (N & S & I). split; [|split].
      + apply insert_sorted_NoDup; [now rewrite I|exact N].
      + now apply insert_sorted_Sorted.
      + intros c. rewrite in_insert_sorted, I. intuition congruence. }
  destruct K as (N & S & I). split; [exact N|]. split; [exact S|].
  intros c. now rewrite I, M.
Qed.

(** The listing returns each code once, in increasing order, in upper
    case; its codes are exactly the upper-cased stems of the files, so
    two files whose names differ only by case give one code. *)
Theorem list_available_emoji_codes_spec (stems : list string) :
  let codes := _list_available_emoji_codes stems in
  NoDup codes
  /\ Sorted str_le codes
  /\ (forall c, In c codes <-> exists stem, In stem stems /\ py_upper stem = c)
  /\ Forall (fun c => py_upper c = c) codes.
Proof.
  intros codes. unfold codes, _list_available_emoji_codes.
  destruct (py_sorted_spec (map py_upper stems)) as (N & S & I).
  split; [exact N|]. split; [exact S|].
  assert (M : forall c, In c (py_sorted (map py_upper stems))
                        <-> exists stem, In stem stems /\ py_upper stem = c).
  { intros c. rewrite I, in_map_iff. split.
    - intros (stem & E & Hin). now exists stem.
    - intros (stem & Hin & E). now exists stem. }
  split; [exact M|].
  apply Forall_forall. intros c Hc. apply M in Hc.
  destruct Hc as (stem & _ & <-). apply py_upper_idem.
Qed.

End ListingFacts.

(* ------------------------------------------------------------------ *)
(** * The points of polygons and paths                                 *)
(* ------------------------------------------------------------------ *)

Section RasterizerCanvas.
Local Open Scope Q_scope.

Lemma length_range2 (n : nat) :
  length (range2 (Z.of_nat n - 1)) = (n / 2)%nat.
Proof.
  unfold range2. rewrite length_map, length_seq.
  replace (Z.of_nat n - 1 + 1)%Z with (Z.of_nat n) by lia.
  rewrite <- (Nat2Z.id (n / 2)). f_equal.
  now rewrite Nat2Z.inj_div.
Qed.

(** Fewer than four coordinates draw nothing. With four or more, the
    points are the consecutive pairs of coordinates, mapped by the
    transform; a trailing odd coordinate is dropped, and there are
    always at least two points, so the second guard of the source never
    fires. *)
Theorem element_points_spec (b : bounds) (size : Z) (pts : list Q) :
  ((length pts < 4)%nat -> element_points b size pts = None)
  /\ ((4 <= length pts)%nat ->
      exists points,
        element_points b size pts = Some points
        /\ length points = (length pts / 2)%nat
        /\ (2 <= length points)%nat
        /\ forall k, (k < length points)%nat ->
             nth k points (0, 0)
             = (tx b size (nth (2 * k) pts 0), ty b size (nth (2 * k + 1) pts 0))).
Proof.
  unfold element_points. split.
  - intros H. destruct (Nat.ltb_spec (length pts) 4); [reflexivity|lia].
  - intros H. destruct (Nat.ltb_spec (length pts) 4); [lia|].
    set (f := fun i : nat => (tx b size (nth i pts 0), ty b size (nth (i + 1) pts 0))).
    assert (L : length (map f (range2 (Z.of_nat (length pts) - 1)))
                = (length pts / 2)%nat).
    { now rewrite length_map, length_range2. }
    assert (L2 : (2 <= length pts / 2)%nat).
    { change 2%nat with (4 / 2)%nat at 1. now apply Nat.Div0.div_le_mono. }
    rewrite L.
    destruct (Nat.ltb_spec (length pts / 2) 2); [lia|].
    exists (map f (range2 (Z.of_nat (length pts) - 1))).
    split; [reflexivity|]. split; [exact L|]. split; [lia|].
    intros k Hk. rewrite L in Hk.
    assert (Hr : nth_error (range2 (Z.of_nat (length pts) - 1)) k = Some (2 * k)%nat).
    { unfold range2. rewrite nth_error_map, nth_error_seq.
      replace (Z.of_nat (length pts) - 1 + 1)%Z with (Z.of_nat (length pts)) by lia.
      change 2%Z with (Z.of_nat 2). rewrite <- Nat2Z.inj_div, Nat2Z.id.
      destruct (Nat.ltb_spec k (length pts / 2)); [reflexivity|lia]. }
    apply nth_error_nth. rewrite nth_error_map, Hr. reflexivity.
Qed.

End RasterizerCanvas.
